(** * SelfTetris: the autoplay placement evaluator of the 7x10 LED matrix sketch

    A shallow embedding of [SelfTetris/SelfTetris.ino]: the board, the
    tetromino tables, the legality check, the drop loop, candidate scoring,
    the best-placement search, the per-tick move selection, piece spawning
    and line clearing, followed by the properties proved about them.

    Conventions.
    - [int] values are mathematical integers ([Z]); every quantity the sketch
      computes is bounded by the board size (see [score_components_bounded]),
      so no machine arithmetic overflows.
    - A [CRGB] colour is its 24-bit colour code; [CRGB::Black] is [0].
    - The globals [board], [currentPiece] and [gameOver] form the record
      [Game]; code that touches them lives in the state monad [M], whose
      failure value [None] only means that a [while] loop ran out of fuel.
    - [random(...)] results are inputs of the functions that draw them. *)

From stdpp Require Import list list_numbers sorting.
From Stdlib Require Import ZArith Lia.

Local Open Scope Z_scope.

(** ** Board and LED setup *)

Definition BOARD_WIDTH : Z := 7.
Definition BOARD_HEIGHT : Z := 10.

Definition CRGB : Type := Z.
Definition Black : CRGB := 0x000000.
Definition Cyan : CRGB := 0x00FFFF.
Definition Yellow : CRGB := 0xFFFF00.
Definition Magenta : CRGB := 0xFF00FF.

(** [CRGB board[BOARD_HEIGHT][BOARD_WIDTH]]: a cell is addressed as
    [b row col].  Only indices inside the array are ever read or written. *)
Definition Grid : Type := Z -> Z -> CRGB.

(** [b[r][c] = v] *)
Definition setCell (b : Grid) (r c : Z) (v : CRGB) : Grid :=
  fun r' c' => if (r' =? r) && (c' =? c) then v else b r' c'.

(** ** Tetromino definitions *)

Definition NUM_TETROMINO : Z := 3.

Definition tetrominoes : list (list (list (Z * Z))) :=
  [ (* I piece *)
    [ [ (0,0); (1,0); (2,0); (3,0) ];
      [ (0,0); (0,1); (0,2); (0,3) ];
      [ (0,0); (1,0); (2,0); (3,0) ];
      [ (0,0); (0,1); (0,2); (0,3) ] ];
    (* O piece *)
    [ [ (0,0); (1,0); (0,1); (1,1) ];
      [ (0,0); (1,0); (0,1); (1,1) ];
      [ (0,0); (1,0); (0,1); (1,1) ];
      [ (0,0); (1,0); (0,1); (1,1) ] ];
    (* T piece *)
    [ [ (0,0); (1,0); (2,0); (1,1) ];
      [ (1,0); (0,1); (1,1); (1,2) ];
      [ (1,0); (0,1); (1,1); (2,1) ];
      [ (0,1); (1,0); (1,1); (1,2) ] ] ].

(** [tetrominoes[ty][rot][i]] as an (x, y) offset.  An index outside the
    table (undefined behaviour in the sketch, and never produced by it) reads
    the offset [(0,0)]. *)
Definition block (ty rot i : Z) : Z * Z :=
  nth (Z.to_nat i)
      (nth (Z.to_nat rot) (nth (Z.to_nat ty) tetrominoes []) [])
      (0, 0).

Definition tetrominoColors : list CRGB := [ Cyan; Yellow; Magenta ].

Definition pieceColor (ty : Z) : CRGB := nth (Z.to_nat ty) tetrominoColors Black.

(** ** Active piece and game state *)

Record Piece : Type := mkPiece {
  type : Z;      (* 0: I, 1: O, 2: T *)
  rotation : Z;  (* 0-3 *)
  x : Z;
  y : Z
}.

Record Game : Type := mkGame {
  board : Grid;
  currentPiece : Piece;
  gameOver : bool
}.

(** Scoring constants for placement simulation. *)
Definition HOLE_PENALTY : Z := 3.
Definition LINE_CLEAR_BONUS : Z := 10.
Definition MAX_HEIGHT_PENALTY : Z := 1.

(** ** The state monad of the sketch *)

Definition M (A : Type) : Type := Game -> option (A * Game).

#[global] Instance M_ret : MRet M := fun A a g => Some (a, g).
#[global] Instance M_bind : MBind M := fun A B f m g =>
  match m g with
  | Some (a, g') => f a g'
  | None => None
  end.

(** A loop that has used up its fuel. *)
Definition outOfFuel {A : Type} : M A := fun _ => None.

Definition readBoard (r c : Z) : M CRGB := fun g => Some (board g r c, g).
Definition writeBoard (r c : Z) (v : CRGB) : M unit := fun g =>
  Some (tt, mkGame (setCell (board g) r c v) (currentPiece g) (gameOver g)).
Definition getPiece : M Piece := fun g => Some (currentPiece g, g).
Definition setPiece (p : Piece) : M unit := fun g =>
  Some (tt, mkGame (board g) p (gameOver g)).
Definition setGameOver (v : bool) : M unit := fun g =>
  Some (tt, mkGame (board g) (currentPiece g) v).

(** [for (a : l) s = body(s, a)] with the loop-carried locals [s]. *)
Fixpoint foldM {A S : Type} (body : S -> A -> M S) (l : list A) (s : S) : M S :=
  match l with
  | [] => mret s
  | a :: l' => s' ← body s a; foldM body l' s'
  end.

(** The value a computation returns from a state, if it returns. *)
Definition eval {A : Type} (m : M A) (g : Game) : option A :=
  match m g with
  | Some (a, _) => Some a
  | None => None
  end.

(** ** canPlace *)

Definition outOfBounds (blockX blockY : Z) : bool :=
  (blockX <? 0) || (blockX >=? BOARD_WIDTH) || (blockY <? 0) || (blockY >=? BOARD_HEIGHT).

Fixpoint canPlace_blocks (p : Piece) (newX newY newRotation : Z) (blocks : list Z) : M bool :=
  match blocks with
  | [] => mret true
  | i :: rest =>
      let blockX := newX + (block (type p) newRotation i).1 in
      let blockY := newY + (block (type p) newRotation i).2 in
      if outOfBounds blockX blockY then mret false
      else
        cell ← readBoard blockY blockX;
        if negb (cell =? Black) then mret false
        else canPlace_blocks p newX newY newRotation rest
  end.

Definition canPlace (p : Piece) (newX newY newRotation : Z) : M bool :=
  canPlace_blocks p newX newY newRotation (seqZ 0 4).

(** ** clearLines *)

(** The inner scan of a row: [fullLine] stays true until an empty cell
    breaks the loop. *)
Fixpoint rowIsFull (r : Z) (cols : list Z) : M bool :=
  match cols with
  | [] => mret true
  | c :: rest =>
      cell ← readBoard r c;
      if cell =? Black then mret false else rowIsFull r rest
  end.

(** [for (row = r; row > 0; row--) for c: board[row][c] = board[row-1][c]] *)
Definition shiftRowsDown (r : Z) : M unit :=
  foldM (fun _ row =>
           foldM (fun _ c => v ← readBoard (row - 1) c; writeBoard row c v)
                 (seqZ 0 BOARD_WIDTH) tt)
        (rev (seqZ 1 r)) tt.

Definition clearTopRow : M unit :=
  foldM (fun _ c => writeBoard 0 c Black) (seqZ 0 BOARD_WIDTH) tt.

Definition clearLines : M unit :=
  foldM (fun _ r =>
           fullLine ← rowIsFull r (seqZ 0 BOARD_WIDTH);
           if (fullLine : bool) then shiftRowsDown r;; clearTopRow
           else mret tt)
        (seqZ 0 BOARD_HEIGHT) tt.

(** ** simulateCandidateScore *)

(** The local array [temp] filled from the live board, cell by cell.  Its
    initial contents are irrelevant: all 70 cells are overwritten. *)
Definition copyBoard : M Grid :=
  foldM (fun temp r =>
           foldM (fun temp c => v ← readBoard r c; mret (setCell temp r c v))
                 (seqZ 0 BOARD_WIDTH) temp)
        (seqZ 0 BOARD_HEIGHT) (fun _ _ => Black).

(** Simulated locking of the candidate into [temp]; a block outside the
    array is skipped. *)
Definition lockInto (temp : Grid) (ty testX landingY testRot : Z) : Grid :=
  fold_left
    (fun t i =>
       let blockX := testX + (block ty testRot i).1 in
       let blockY := landingY + (block ty testRot i).2 in
       if (blockY >=? 0) && (blockY <? BOARD_HEIGHT) && (blockX >=? 0) && (blockX <? BOARD_WIDTH)
       then setCell t blockY blockX (pieceColor ty)
       else t)
    (seqZ 0 4) temp.

(** One column of the hole count: [(foundBlock, holes)] over the rows. *)
Definition scanColumn (temp : Grid) (col : Z) (st : bool * Z) (row : Z) : bool * Z :=
  let '(foundBlock, holes) := st in
  if negb (temp row col =? Black) then (true, holes)
  else if foundBlock then (foundBlock, holes + 1)
  else (foundBlock, holes).

Definition countHoles (temp : Grid) : Z :=
  fold_left
    (fun holes col => (fold_left (scanColumn temp col) (seqZ 0 BOARD_HEIGHT) (false, holes)).2)
    (seqZ 0 BOARD_WIDTH) 0.

Fixpoint isFullLine (temp : Grid) (r : Z) (cols : list Z) : bool :=
  match cols with
  | [] => true
  | c :: rest => if temp r c =? Black then false else isFullLine temp r rest
  end.

Definition countFullLines (temp : Grid) : Z :=
  fold_left
    (fun linesCleared r =>
       if isFullLine temp r (seqZ 0 BOARD_WIDTH) then linesCleared + 1 else linesCleared)
    (seqZ 0 BOARD_HEIGHT) 0.

(** [colHeight]: 0 unless the scan meets an occupied cell, then
    [BOARD_HEIGHT - row] and the scan stops. *)
Fixpoint columnHeight (temp : Grid) (col : Z) (rows : list Z) : Z :=
  match rows with
  | [] => 0
  | row :: rest =>
      if negb (temp row col =? Black) then BOARD_HEIGHT - row
      else columnHeight temp col rest
  end.

Definition maxColumnHeight (temp : Grid) : Z :=
  fold_left
    (fun maxHeight col =>
       let colHeight := columnHeight temp col (seqZ 0 BOARD_HEIGHT) in
       if colHeight >? maxHeight then colHeight else maxHeight)
    (seqZ 0 BOARD_WIDTH) 0.

Definition simulateCandidateScore (candidate : Piece) (testX landingY testRot : Z) : M Z :=
  temp0 ← copyBoard;
  let temp := lockInto temp0 (type candidate) testX landingY testRot in
  let holes := countHoles temp in
  let linesCleared := countFullLines temp in
  let maxHeight := maxColumnHeight temp in
  mret (landingY - HOLE_PENALTY * holes + LINE_CLEAR_BONUS * linesCleared
        - MAX_HEIGHT_PENALTY * maxHeight).

(** ** findBestPlacement *)

(** [while (canPlace(currentPiece, x, landingY + 1, rot)) landingY++;]
    One unit of fuel pays for one test of the loop condition. *)
Fixpoint dropLoop (fuel : nat) (col rot landingY : Z) : M Z :=
  match fuel with
  | O => outOfFuel
  | S fuel' =>
      cur ← getPiece;
      ok ← canPlace cur col (landingY + 1) rot;
      if (ok : bool) then dropLoop fuel' col rot (landingY + 1) else mret landingY
  end.

(** The largest x offset of the four blocks, found from 0 upwards. *)
Definition maxOffset (ty rot : Z) : Z :=
  fold_left
    (fun maxOffset i =>
       let x_offset := (block ty rot i).1 in
       if x_offset >? maxOffset then x_offset else maxOffset)
    (seqZ 0 4) 0.

(** The body of the column loop; [best] is [(bestScore, chosenX, chosenRot)]. *)
Definition tryColumn (fuel : nat) (rot : Z) (best : Z * Z * Z) (col : Z) : M (Z * Z * Z) :=
  cur ← getPiece;
  ok ← canPlace cur col 0 rot;
  if negb ok then mret best
  else
    landingY ← dropLoop fuel col rot 0;
    cur ← getPiece;
    score ← simulateCandidateScore cur col landingY rot;
    if score >? best.1.1 then mret (score, col, rot) else mret best.

Definition tryRotation (fuel : nat) (best : Z * Z * Z) (rot : Z) : M (Z * Z * Z) :=
  cur ← getPiece;
  let maxX := BOARD_WIDTH - maxOffset (type cur) rot in
  foldM (tryColumn fuel rot) (seqZ 0 maxX) best.

(** Returns [(bestX, bestRotation)], the two out-parameters. *)
Definition findBestPlacement (fuel : nat) : M (Z * Z) :=
  cur ← getPiece;
  best ← foldM (tryRotation fuel) (seqZ 0 4) (-10000, x cur, rotation cur);
  mret (best.1.2, best.2).

(** ** performStrategicMove *)

Definition uint8 (v : Z) : Z := v `mod` 256.

Definition movePiece (newX : Z) (newRotation : Z) : M unit :=
  cur ← getPiece;
  setPiece (mkPiece (type cur) newRotation newX (y cur)).

(** [roll] is [random(0, 100)], [move] is [random(0, 2)]. *)
Definition performStrategicMove (fuel : nat) (roll move : Z) : M unit :=
  if roll <? 10 then
    cur ← getPiece;
    goLeft ← (if move =? 0 then canPlace cur (x cur - 1) (y cur) (rotation cur) else mret false);
    if (goLeft : bool) then movePiece (x cur - 1) (rotation cur)
    else
      goRight ← (if move =? 1 then canPlace cur (x cur + 1) (y cur) (rotation cur) else mret false);
      if (goRight : bool) then movePiece (x cur + 1) (rotation cur) else mret tt
  else
    target ← findBestPlacement fuel;
    let bestX := target.1 in
    let bestRot := target.2 in
    cur ← getPiece;
    if negb (rotation cur =? bestRot) then
      let newRot := uint8 ((rotation cur + 1) `rem` 4) in
      ok ← canPlace cur (x cur) (y cur) newRot;
      if (ok : bool) then movePiece (x cur) newRot
      else
        okLeft ← canPlace cur (x cur - 1) (y cur) newRot;
        if (okLeft : bool) then movePiece (x cur - 1) newRot
        else
          okRight ← canPlace cur (x cur + 1) (y cur) newRot;
          if (okRight : bool) then movePiece (x cur + 1) newRot else mret tt
    else if x cur <? bestX then
      ok ← canPlace cur (x cur + 1) (y cur) (rotation cur);
      if (ok : bool) then movePiece (x cur + 1) (rotation cur) else mret tt
    else if x cur >? bestX then
      ok ← canPlace cur (x cur - 1) (y cur) (rotation cur);
      if (ok : bool) then movePiece (x cur - 1) (rotation cur) else mret tt
    else mret tt.

(** ** spawnPiece *)

(** [rnd] is [random(0, NUM_TETROMINO)]. *)
Definition spawnPiece (rnd : Z) : M unit :=
  let ty := uint8 rnd in
  let spawnX :=
    if ty =? 0 then (BOARD_WIDTH - 4) `quot` 2
    else if ty =? 1 then (BOARD_WIDTH - 2) `quot` 2
    else (BOARD_WIDTH - 3) `quot` 2 in
  setPiece (mkPiece ty 0 spawnX 0);;
  cur ← getPiece;
  ok ← canPlace cur (x cur) (y cur) (rotation cur);
  if negb ok then setGameOver true else mret tt.

(** ** The LED buffer and the matrix mapping *)

Definition NUM_LEDS : Z := 70.
Definition Red : CRGB := 0xFF0000.

(** [int matrix[BOARD_HEIGHT][BOARD_WIDTH]]: the LED index of each cell. *)
Definition matrix : list (list Z) :=
  [ [69; 50; 49; 30; 29; 10; 9];
    [68; 51; 48; 31; 28; 11; 8];
    [67; 52; 47; 32; 27; 12; 7];
    [66; 53; 46; 33; 26; 13; 6];
    [65; 54; 45; 34; 25; 14; 5];
    [64; 55; 44; 35; 24; 15; 4];
    [63; 56; 43; 36; 23; 16; 3];
    [62; 57; 42; 37; 22; 17; 2];
    [61; 58; 41; 38; 21; 18; 1];
    [60; 59; 40; 39; 20; 19; 0] ].

(** [matrix[r][c]]; an index outside the table is never read. *)
Definition matrixAt (r c : Z) : Z :=
  nth (Z.to_nat c) (nth (Z.to_nat r) matrix []) 0.

(** [CRGB leds[NUM_LEDS]], the buffer handed to [FastLED.show()]. *)
Definition Leds : Type := Z -> CRGB.

(** [leds[i] = v] *)
Definition setLed (leds : Leds) (i : Z) (v : CRGB) : Leds :=
  fun j => if j =? i then v else leds j.

(** ** clearBoard *)

Definition clearBoard : M unit :=
  foldM (fun _ r => foldM (fun _ c => writeBoard r c Black) (seqZ 0 BOARD_WIDTH) tt)
        (seqZ 0 BOARD_HEIGHT) tt.

(** ** lockPiece *)

Definition lockPiece : M unit :=
  cur0 ← getPiece;
  let color := pieceColor (type cur0) in
  foldM (fun _ i =>
           cur ← getPiece;
           let blockX := x cur + (block (type cur) (rotation cur) i).1 in
           let blockY := y cur + (block (type cur) (rotation cur) i).2 in
           if (blockY >=? 0) && (blockY <? BOARD_HEIGHT) && (blockX >=? 0) && (blockX <? BOARD_WIDTH)
           then writeBoard blockY blockX color
           else mret tt)
        (seqZ 0 4) tt.

(** ** updateDisplay *)

(** The overlay of the falling piece on the LED buffer; a block outside the
    board is not drawn. *)
Definition overlayPiece (leds : Leds) (cur : Piece) : Leds :=
  fold_left
    (fun leds i =>
       let blockX := x cur + (block (type cur) (rotation cur) i).1 in
       let blockY := y cur + (block (type cur) (rotation cur) i).2 in
       if (blockX >=? 0) && (blockX <? BOARD_WIDTH) && (blockY >=? 0) && (blockY <? BOARD_HEIGHT)
       then setLed leds (matrixAt blockY blockX) (pieceColor (type cur))
       else leds)
    (seqZ 0 4) leds.

(** Returns the buffer that is shown.  [FastLED.clear()] blanks the whole
    buffer first, so the result does not depend on what was shown before. *)
Definition updateDisplay : M Leds :=
  leds ← foldM (fun leds r =>
                  foldM (fun leds c =>
                           cell ← readBoard r c;
                           if negb (cell =? Black) then mret (setLed leds (matrixAt r c) cell)
                           else mret leds)
                        (seqZ 0 BOARD_WIDTH) leds)
               (seqZ 0 BOARD_HEIGHT) (fun _ => Black);
  cur ← getPiece;
  mret (overlayPiece leds cur).

(** ** gameOverSequence *)

(** Returns the two buffers it shows: the red flash, then the restarted game.
    [rnd] is the [random(0, NUM_TETROMINO)] of [spawnPiece]; the two-second
    [delay] has no effect on the state. *)
Definition gameOverSequence (rnd : Z) : M (list Leds) :=
  let red := fold_left (fun leds i => setLed leds i Red) (seqZ 0 NUM_LEDS) (fun _ => Black) in
  clearBoard;;
  setGameOver false;;
  spawnPiece rnd;;
  leds ← updateDisplay;
  mret [red; leds].

(** ** setup and loop *)

Definition setup (rnd : Z) : M unit :=
  clearBoard;; spawnPiece rnd.

Definition getGameOver : M bool := fun g => Some (gameOver g, g).

Definition gameSpeed : Z := 500.

(** Subtraction of two [unsigned long] values. *)
Definition uint32 (v : Z) : Z := v `mod` 2 ^ 32.

(** The body of [loop] once the update interval has elapsed: one strategic
    move, then one row down or, when the piece has landed, lock, clear and
    spawn. *)
Definition gameUpdate (fuel : nat) (roll move rnd : Z) : M unit :=
  performStrategicMove fuel roll move;;
  cur ← getPiece;
  ok ← canPlace cur (x cur) (y cur + 1) (rotation cur);
  if (ok : bool) then setPiece (mkPiece (type cur) (rotation cur) (x cur) (y cur + 1))
  else lockPiece;; clearLines;; spawnPiece rnd.

(** [loop()]: [lastUpdateTime] is passed in and returned, [currentMillis] is
    [millis()], the other inputs are the random draws.  Returns the new
    [lastUpdateTime] and the buffers shown. *)
Definition loop (fuel : nat) (lastUpdateTime currentMillis roll move rnd : Z)
  : M (Z * list Leds) :=
  over ← getGameOver;
  if (over : bool) then
    frames ← gameOverSequence rnd;
    mret (lastUpdateTime, frames)
  else if uint32 (currentMillis - lastUpdateTime) >=? gameSpeed then
    gameUpdate fuel roll move rnd;;
    leds ← updateDisplay;
    mret (currentMillis, [leds])
  else mret (lastUpdateTime, []).

(** * Specification-side notions

    The definitions below do not come from the sketch: they phrase, in the
    words of the specification, what the code above is compared with. *)

Definition validType (ty : Z) : Prop := 0 ≤ ty < NUM_TETROMINO.
Definition validRotation (rot : Z) : Prop := 0 ≤ rot < 4.

(** A cell of the 7x10 board. *)
Definition inBoard (r c : Z) : Prop := (0 ≤ r < BOARD_HEIGHT) ∧ (0 ≤ c < BOARD_WIDTH).

(** All four blocks of the piece anchored at [(col, row)] are inside the
    board and on empty cells. *)
Definition placementLegal (b : Grid) (ty rot col row : Z) : Prop :=
  ∀ i, 0 ≤ i < 4 →
    inBoard (row + (block ty rot i).2) (col + (block ty rot i).1) ∧
    b (row + (block ty rot i).2) (col + (block ty rot i).1) = Black.

(** Its decision procedure. *)
Definition blockFree (b : Grid) (ty rot col row i : Z) : bool :=
  negb (outOfBounds (col + (block ty rot i).1) (row + (block ty rot i).2))
  && (b (row + (block ty rot i).2) (col + (block ty rot i).1) =? Black).

Definition placementLegalb (b : Grid) (ty rot col row : Z) : bool :=
  forallb (blockFree b ty rot col row) (seqZ 0 4).

(** A cell holding a colour other than black. *)
Definition occupied (t : Grid) (r c : Z) : bool := negb (t r c =? Black).

(** An empty cell with at least one occupied cell above it in its column. *)
Definition isHole (t : Grid) (r c : Z) : bool :=
  negb (occupied t r c) && existsb (fun r' => occupied t r' c) (seqZ 0 r).

(** The number of holes, summed over all columns. *)
Definition holesSpec (t : Grid) : Z :=
  Z.of_nat (sum_list_with
              (fun c => length (List.filter (fun r => isHole t r c) (seqZ 0 BOARD_HEIGHT)))
              (seqZ 0 BOARD_WIDTH)).

(** A row in which every column is occupied. *)
Definition rowFull (t : Grid) (r : Z) : bool :=
  forallb (fun c => occupied t r c) (seqZ 0 BOARD_WIDTH).

(** The number of such rows. *)
Definition clearedLinesSpec (t : Grid) : Z :=
  Z.of_nat (length (List.filter (rowFull t) (seqZ 0 BOARD_HEIGHT))).

(** The board [b] with the four blocks of the candidate locked in. *)
Definition snapshot (b : Grid) (ty testX landingY testRot : Z) : Grid :=
  fun r c =>
    if existsb (fun i => (r =? landingY + (block ty testRot i).2)
                         && (c =? testX + (block ty testRot i).1))
               (seqZ 0 4)
    then pieceColor ty
    else b r c.

(** Row [r] holds the topmost occupied cell of column [c]; row 0 is the top
    board edge, where pieces spawn. *)
Definition topmostOccupied (t : Grid) (c r : Z) : Prop :=
  0 ≤ r < BOARD_HEIGHT ∧ t r c ≠ Black ∧ ∀ r', 0 ≤ r' < r → t r' c = Black.

Definition columnEmpty (t : Grid) (c : Z) : Prop :=
  ∀ r, 0 ≤ r < BOARD_HEIGHT → t r c = Black.

(** The height of the stack in column [c]: the rows from its topmost
    occupied cell down to the bottom board edge, 0 for an empty column. *)
Definition stackHeight (t : Grid) (c h : Z) : Prop :=
  (columnEmpty t c ∧ h = 0) ∨ (∃ r, topmostOccupied t c r ∧ h = BOARD_HEIGHT - r).

(** The distance from the top board edge to the topmost occupied cell of
    column [c], 0 for an empty column.  [edge] is 0 when the distance is
    counted in rows above the cell and 1 when the cell itself is counted. *)
Definition topDistance (edge : Z) (t : Grid) (c d : Z) : Prop :=
  (columnEmpty t c ∧ d = 0) ∨ (∃ r, topmostOccupied t c r ∧ d = r + edge).

(** [m] is the maximum, across the columns, of a per-column quantity. *)
Definition maxAcrossColumns (quantity : Z → Z → Prop) (m : Z) : Prop :=
  (∃ c, 0 ≤ c < BOARD_WIDTH ∧ quantity c m) ∧
  (∀ c v, 0 ≤ c < BOARD_WIDTH → quantity c v → v ≤ m).

(** The piece of the state [g] may stand at [(col, 0)] in rotation [rot]. *)
Definition legalAtSpawn (g : Game) (rot col : Z) : Prop :=
  placementLegal (board g) (type (currentPiece g)) rot col 0.

(** The candidate score of [(rot, col)]: drop from the spawn row, then score
    the landing position. *)
Definition candidateScore (fuel : nat) (rot col : Z) : M Z :=
  landingY ← dropLoop fuel col rot 0;
  cur ← getPiece;
  simulateCandidateScore cur col landingY rot.

(** The enumeration order of the search on (rotation, column) pairs:
    rotation ascending, then column ascending. *)
Definition searchOrder (c1 c2 : Z * Z) : Prop :=
  c1.1 < c2.1 ∨ (c1.1 = c2.1 ∧ c1.2 < c2.2).

(** [k] is the maximum rightward block offset of a rotation. *)
Definition maxRightOffset (ty rot k : Z) : Prop :=
  (∃ i, 0 ≤ i < 4 ∧ (block ty rot i).1 = k) ∧ (∀ i, 0 ≤ i < 4 → (block ty rot i).1 ≤ k).

(** The number of full rows of [b] strictly between rows [r] and [k]. *)
Definition fullRowsBetween (b : Grid) (r k : Z) : Z :=
  Z.of_nat (length (List.filter (rowFull b) (seqZ (r + 1) (k - r - 1)))).

(** The number of full rows of [b] below row [r]. *)
Definition fullRowsBelow (b : Grid) (r : Z) : Z := fullRowsBetween b r BOARD_HEIGHT.

(** The cells of the board in the order the row and column loops visit
    them. *)
Definition boardCells : list (Z * Z) :=
  flat_map (fun r => map (fun c => (r, c)) (seqZ 0 BOARD_WIDTH)) (seqZ 0 BOARD_HEIGHT).

(** The falling piece lies on empty cells inside the board. *)
Definition pieceLegal (g : Game) : Prop :=
  placementLegal (board g) (type (currentPiece g)) (rotation (currentPiece g))
                 (x (currentPiece g)) (y (currentPiece g)).

(** Every cell of the board is empty. *)
Definition boardEmpty (b : Grid) : Prop := ∀ r c, inBoard r c → b r c = Black.

(** No row of the board is fully occupied. *)
Definition noFullRow (b : Grid) : Prop := ∀ r, 0 ≤ r < BOARD_HEIGHT → rowFull b r = false.

(** The states of a running game: no full row is left on the board, the
    piece is one of the catalogue, and while the game is not over the piece
    lies on free cells and some placement is legal at the spawn row. *)
Definition inPlay (g : Game) : Prop :=
  noFullRow (board g) ∧
  validType (type (currentPiece g)) ∧
  validRotation (rotation (currentPiece g)) ∧
  (gameOver g = false →
     pieceLegal g ∧ ∃ rot col, validRotation rot ∧ legalAtSpawn g rot col).

(** * Auxiliary notions

    What the loops of the sketch compute, as plain functions; each is proved
    below to agree with the code it describes. *)

(** Two grids with the same 70 cells. *)
Definition sameCells (t1 t2 : Grid) : Prop :=
  ∀ r c, inBoard r c → t1 r c = t2 r c.

(** The (rotation, column) pairs the two nested loops of the search visit,
    in the order they visit them. *)
Definition candidates (ty : Z) : list (Z * Z) :=
  flat_map (fun rot => map (fun col => (rot, col)) (seqZ 0 (BOARD_WIDTH - maxOffset ty rot)))
           (seqZ 0 4).

(** The value of [candidateScore] in the state [g]. *)
Definition scoreValue (fuel : nat) (g : Game) (c : Z * Z) : Z :=
  match eval (candidateScore fuel c.1 c.2) g with
  | Some s => s
  | None => 0
  end.

(** What one visit of the search does to [(bestScore, chosenX, chosenRot)]. *)
Definition keepBest (legal : Z * Z → bool) (score : Z * Z → Z) (best : Z * Z * Z) (c : Z * Z)
  : Z * Z * Z :=
  if legal c then
    if score c >? best.1.1 then (score c, c.2, c.1) else best
  else best.

(** The state [g] with its board replaced by [b]. *)
Definition withBoard (b : Grid) (g : Game) : Game :=
  mkGame b (currentPiece g) (gameOver g).

(** The board transformations carried out by the loops of [clearLines]. *)
Definition copyRowDown (b : Grid) (row : Z) : Grid :=
  fold_left (fun b c => setCell b row c (b (row - 1) c)) (seqZ 0 BOARD_WIDTH) b.

Definition shiftDownGrid (b : Grid) (r : Z) : Grid :=
  fold_left copyRowDown (rev (seqZ 1 r)) b.

Definition clearTopGrid (b : Grid) : Grid :=
  fold_left (fun b c => setCell b 0 c Black) (seqZ 0 BOARD_WIDTH) b.

Definition clearStep (b : Grid) (r : Z) : Grid :=
  if isFullLine b r (seqZ 0 BOARD_WIDTH) then clearTopGrid (shiftDownGrid b r) else b.

(** The invariant of the row loop of [clearLines] before it examines row
    [k]; [b0] is the board at entry, [b] the board now. *)
Definition clearedAbove (b0 : Grid) (k : Z) (b : Grid) : Prop :=
  (∀ r c, k ≤ r < BOARD_HEIGHT → 0 ≤ c < BOARD_WIDTH → b r c = b0 r c) ∧
  (∀ r c, 0 ≤ r < fullRowsBetween b0 (-1) k → 0 ≤ c < BOARD_WIDTH → b r c = Black) ∧
  (∀ r, 0 ≤ r < k → rowFull b0 r = false →
     ∀ c, 0 ≤ c < BOARD_WIDTH → b (r + fullRowsBetween b0 r k) c = b0 r c) ∧
  (∀ r, 0 ≤ r < k → rowFull b r = false).

(** What the first loop nest of [updateDisplay] does with one cell, and with
    all of them. *)
Definition drawCell (b : Grid) (leds : Leds) (cell : Z * Z) : Leds :=
  if negb (b cell.1 cell.2 =? Black) then setLed leds (matrixAt cell.1 cell.2) (b cell.1 cell.2)
  else leds.

Definition drawBoard (b : Grid) : Leds :=
  fold_left (drawCell b) boardCells (fun _ => Black).

(** The serpentine wiring of the matrix in closed form: the columns run
    right to left, even columns bottom-up and odd columns top-down. *)
Definition serpentine (r c : Z) : Z :=
  if Z.even c then 10 * (6 - c) + 9 - r else 10 * (6 - c) + r.

(** The column [spawnPiece] gives a new piece of type [ty]. *)
Definition spawnColumn (ty : Z) : Z :=
  if ty =? 0 then (BOARD_WIDTH - 4) `quot` 2
  else if ty =? 1 then (BOARD_WIDTH - 2) `quot` 2
  else (BOARD_WIDTH - 3) `quot` 2.

(** * Example states *)

Definition emptyBoard : Grid := fun _ _ => Black.

(** An I piece freshly spawned on the empty board. *)
Definition freshGame : Game := mkGame emptyBoard (mkPiece 0 0 1 0) false.

(** One locked cell in the left column, with free rows below it; an O piece
    is falling. *)
Definition overhangBoard : Grid := fun r c => if (r =? 3) && (c =? 0) then Cyan else Black.
Definition overhangGame : Game := mkGame overhangBoard (mkPiece 1 0 2 0) false.

(** The top row is occupied except for its last cell, and the cell under
    that one is occupied too: no I piece fits at the spawn row. *)
Definition blockedBoard : Grid :=
  fun r c => if ((r =? 0) && (c <? 6)) || ((r =? 1) && (c =? 6)) then Yellow else Black.
Definition blockedGame : Game := mkGame blockedBoard (mkPiece 0 0 1 0) false.

(** An O piece resting on the floor of an empty board is scored at
    [(testX, landingY) = (0, 8)]. *)
Definition floorSnapshot : Grid := snapshot emptyBoard 1 0 8 0.

(** The bottom row is occupied except for its last cell. *)
Definition almostFullRowBoard : Grid := fun r c => if (r =? 9) && (c <? 6) then Cyan else Black.

(** Two consecutive full rows at the bottom, three cells on top of them. *)
Definition twoFullRowsBoard : Grid :=
  fun r c => if (r =? 9) || (r =? 8) || ((r =? 7) && (c <? 3)) then Magenta else Black.

(** The rows of a board that hold an occupied cell, with their occupancy. *)
Definition occupiedRows (b : Grid) : list (Z * list bool) :=
  List.filter (fun row => existsb id row.2)
              (map (fun r => (r, map (fun c => occupied b r c) (seqZ 0 BOARD_WIDTH)))
                   (seqZ 0 BOARD_HEIGHT)).

(** * Properties *)

(** ** The monad *)

Lemma bind_run {A B : Type} (m : M A) (f : A → M B) (g : Game) :
  (m ≫= f) g = match m g with Some (a, g') => f a g' | None => None end.
Proof. reflexivity. Qed.

Lemma bind_run_Some {A B : Type} (m : M A) (f : A → M B) (g g' : Game) (a : A) :
  m g = Some (a, g') → (m ≫= f) g = f a g'.
Proof. intros E. rewrite bind_run, E. reflexivity. Qed.

Lemma getPiece_run (g : Game) : getPiece g = Some (currentPiece g, g).
Proof. reflexivity. Qed.

Lemma readBoard_run (r c : Z) (g : Game) : readBoard r c g = Some (board g r c, g).
Proof. reflexivity. Qed.

(** A loop whose body only computes, in a fixed state [g], is a fold. *)
Lemma foldM_pure {A S : Type} (body : S → A → M S) (step : S → A → S) (g : Game) (l : list A) :
  (∀ s a, a ∈ l → body s a g = Some (step s a, g)) →
  ∀ s, foldM body l s g = Some (fold_left step l s, g).
Proof.
  induction l as [|a l IH]; intros Hbody s; simpl.
  - reflexivity.
  - rewrite (bind_run_Some _ _ g g (step s a)).
    + apply IH. intros s' a' Hin. apply Hbody. now right.
    + apply Hbody. now left.
Qed.

(** ** The tetromino tables *)

(** Whatever holds of every table entry and of the default offset holds of
    every lookup. *)
Lemma block_table_ind (P : Z * Z → Prop) (ty rot i : Z) :
  P (0, 0) → Forall (Forall (Forall P)) tetrominoes → P (block ty rot i).
Proof.
  intros Hd Hall. unfold block.
  set (rots := nth (Z.to_nat ty) tetrominoes []).
  assert (Hrots : Forall (Forall P) rots).
  { destruct (nth_in_or_default (Z.to_nat ty) tetrominoes []) as [Hin | Heq].
    - rewrite Forall_forall in Hall. apply Hall, list_elem_of_In, Hin.
    - subst rots. rewrite Heq. constructor. }
  set (blocks := nth (Z.to_nat rot) rots []).
  assert (Hblocks : Forall P blocks).
  { destruct (nth_in_or_default (Z.to_nat rot) rots []) as [Hin | Heq].
    - rewrite Forall_forall in Hrots. apply Hrots, list_elem_of_In, Hin.
    - subst blocks. rewrite Heq. constructor. }
  destruct (nth_in_or_default (Z.to_nat i) blocks (0, 0)) as [Hin | Heq].
  - rewrite Forall_forall in Hblocks. apply Hblocks, list_elem_of_In, Hin.
  - rewrite Heq. exact Hd.
Qed.

Lemma block_nonneg (ty rot i : Z) : 0 ≤ (block ty rot i).1 ∧ 0 ≤ (block ty rot i).2.
Proof.
  apply (block_table_ind (fun o => 0 ≤ o.1 ∧ 0 ≤ o.2)); [simpl; lia|].
  unfold tetrominoes. repeat constructor; simpl; lia.
Qed.

Lemma valid_type_cases (ty : Z) : validType ty → ty = 0 ∨ ty = 1 ∨ ty = 2.
Proof. unfold validType, NUM_TETROMINO. lia. Qed.

Lemma valid_rotation_cases (rot : Z) : validRotation rot → rot = 0 ∨ rot = 1 ∨ rot = 2 ∨ rot = 3.
Proof. unfold validRotation. lia. Qed.

Lemma pieceColor_occupied (ty : Z) : validType ty → pieceColor ty ≠ Black.
Proof.
  intros H. destruct (valid_type_cases ty H) as [-> | [-> | ->]]; vm_compute; discriminate.
Qed.

(** ** canPlace *)

Lemma outOfBounds_false (bx by_ : Z) : outOfBounds bx by_ = false ↔ inBoard by_ bx.
Proof. unfold outOfBounds, inBoard, BOARD_WIDTH, BOARD_HEIGHT. lia. Qed.

Lemma blockFree_spec (b : Grid) (ty rot col row i : Z) :
  blockFree b ty rot col row i = true ↔
  inBoard (row + (block ty rot i).2) (col + (block ty rot i).1) ∧
  b (row + (block ty rot i).2) (col + (block ty rot i).1) = Black.
Proof.
  unfold blockFree. rewrite andb_true_iff, negb_true_iff, outOfBounds_false, Z.eqb_eq.
  reflexivity.
Qed.

Lemma placementLegalb_spec (b : Grid) (ty rot col row : Z) :
  placementLegalb b ty rot col row = true ↔ placementLegal b ty rot col row.
Proof.
  unfold placementLegalb, placementLegal. rewrite forallb_forall. split.
  - intros H i Hi. apply blockFree_spec, H, list_elem_of_In, elem_of_seqZ. lia.
  - intros H i Hi. apply list_elem_of_In, elem_of_seqZ in Hi. apply blockFree_spec, H. lia.
Qed.

Lemma canPlace_blocks_run (p : Piece) (newX newY newRotation : Z) (blocks : list Z) (g : Game) :
  canPlace_blocks p newX newY newRotation blocks g =
  Some (forallb (blockFree (board g) (type p) newRotation newX newY) blocks, g).
Proof.
  induction blocks as [|i rest IH]; simpl; [reflexivity|].
  unfold blockFree at 1.
  destruct (outOfBounds _ _); simpl; [reflexivity|].
  rewrite bind_run, readBoard_run. simpl.
  destruct (board g _ _ =? Black); simpl; [exact IH | reflexivity].
Qed.

Lemma canPlace_run (p : Piece) (newX newY newRotation : Z) (g : Game) :
  canPlace p newX newY newRotation g =
  Some (placementLegalb (board g) (type p) newRotation newX newY, g).
Proof. apply canPlace_blocks_run. Qed.

Lemma forallb_false_iff {A : Type} (f : A → bool) (l : list A) :
  forallb f l = false ↔ ∃ a, a ∈ l ∧ f a = false.
Proof.
  induction l as [|a l IH]; simpl.
  - split; [discriminate | intros (a & Hin & _); inversion Hin].
  - rewrite andb_false_iff, IH. split.
    + intros [Ha | (a' & Hin & Ha')]; [exists a | exists a']; split; auto; constructor; auto.
    + intros (a' & Hin & Ha'). inversion Hin; subst; [left | right; exists a']; auto.
Qed.

Lemma placementLegal_row_bound (b : Grid) (ty rot col row : Z) :
  placementLegal b ty rot col row → row < BOARD_HEIGHT.
Proof.
  intros H. destruct (H 0 ltac:(lia)) as [[Hr _] _].
  pose proof (block_nonneg ty rot 0). lia.
Qed.

(** ** The drop loop *)

Lemma dropLoop_run (fuel : nat) :
  ∀ (g : Game) (col rot y0 : Z),
    (Z.to_nat (BOARD_HEIGHT - y0) ≤ fuel)%nat → (1 ≤ fuel)%nat →
    ∃ landingY, dropLoop fuel col rot y0 g = Some (landingY, g) ∧ y0 ≤ landingY ∧
      (∀ r, y0 < r ≤ landingY → placementLegal (board g) (type (currentPiece g)) rot col r) ∧
      ¬ placementLegal (board g) (type (currentPiece g)) rot col (landingY + 1).
Proof.
  induction fuel as [|fuel IH]; intros g col rot y0 Hfuel Hpos; [lia|].
  simpl. rewrite bind_run, getPiece_run. simpl.
  rewrite bind_run, canPlace_run. simpl.
  destruct (placementLegalb _ _ _ _ _) eqn:Hok.
  - apply placementLegalb_spec in Hok.
    pose proof (placementLegal_row_bound _ _ _ _ _ Hok) as Hb. unfold BOARD_HEIGHT in *.
    destruct (IH g col rot (y0 + 1)) as (ly & Hrun & Hle & Hall & Hstop); [lia | lia |].
    exists ly. split; [exact Hrun|]. split; [lia|]. split; [|exact Hstop].
    intros r Hr. destruct (Z.eq_dec r (y0 + 1)) as [-> | Hne]; [exact Hok|].
    apply Hall. lia.
  - exists y0. split; [reflexivity|]. split; [lia|]. split; [intros r Hr; lia|].
    intros Hlegal. apply placementLegalb_spec in Hlegal. congruence.
Qed.

(** ** Copying the board and locking the candidate into the copy *)

Lemma setCell_eq (b : Grid) (r c : Z) (v : CRGB) : setCell b r c v r c = v.
Proof. unfold setCell. rewrite !Z.eqb_refl. reflexivity. Qed.

Lemma setCell_ne (b : Grid) (r c r' c' : Z) (v : CRGB) :
  r' ≠ r ∨ c' ≠ c → setCell b r c v r' c' = b r' c'.
Proof.
  intros H. unfold setCell.
  destruct (Z.eqb_spec r' r), (Z.eqb_spec c' c); simpl; try reflexivity. lia.
Qed.

Lemma copy_row_cells (b : Grid) (r : Z) (cols : list Z) :
  ∀ (t : Grid) (r' c' : Z),
    (r' = r → c' ∈ cols →
       fold_left (fun temp c => setCell temp r c (b r c)) cols t r' c' = b r' c') ∧
    (r' ≠ r ∨ c' ∉ cols →
       fold_left (fun temp c => setCell temp r c (b r c)) cols t r' c' = t r' c').
Proof.
  induction cols as [|c cols IH]; intros t r' c'; simpl.
  - split; [intros _ Hin; inversion Hin | reflexivity].
  - destruct (IH (setCell t r c (b r c)) r' c') as [IHin IHout]. split.
    + intros -> Hin. destruct (decide (c' ∈ cols)) as [Hc | Hc]; [now apply IHin|].
      rewrite IHout by now right.
      inversion Hin; subst; [apply setCell_eq | contradiction].
    + intros Hout. rewrite IHout.
      * apply setCell_ne. destruct Hout as [Hr | Hc]; [now left|].
        right. intros ->. apply Hc. now left.
      * destruct Hout as [Hr | Hc]; [now left|]. right. intros Hin. apply Hc. now right.
Qed.

Lemma copy_rows_cells (b : Grid) (cols rows : list Z) :
  ∀ (t : Grid) (r' c' : Z),
    (r' ∈ rows → c' ∈ cols →
       fold_left (fun temp r => fold_left (fun temp c => setCell temp r c (b r c)) cols temp)
                 rows t r' c' = b r' c') ∧
    (r' ∉ rows ∨ c' ∉ cols →
       fold_left (fun temp r => fold_left (fun temp c => setCell temp r c (b r c)) cols temp)
                 rows t r' c' = t r' c').
Proof.
  induction rows as [|r rows IH]; intros t r' c'; simpl.
  - split; [intros Hin; inversion Hin | reflexivity].
  - set (t1 := fold_left (fun temp c => setCell temp r c (b r c)) cols t).
    destruct (IH t1 r' c') as [IHin IHout].
    destruct (copy_row_cells b r cols t r' c') as [Rin Rout]. fold t1 in Rin, Rout.
    split.
    + intros Hr Hc. destruct (decide (r' ∈ rows)) as [Hr' | Hr']; [now apply IHin|].
      rewrite IHout by now left.
      inversion Hr; subst; [now apply Rin | contradiction].
    + intros Hout. rewrite IHout.
      * apply Rout. destruct Hout as [Hr | Hc]; [|now right].
        left. intros ->. apply Hr. now left.
      * destruct Hout as [Hr | Hc]; [|now right]. left. intros Hin. apply Hr. now right.
Qed.

Lemma copyBoard_run (g : Game) :
  ∃ temp, copyBoard g = Some (temp, g) ∧ sameCells temp (board g).
Proof.
  eexists. split.
  - unfold copyBoard.
    apply (foldM_pure _
             (fun temp r => fold_left (fun temp c => setCell temp r c (board g r c))
                                      (seqZ 0 BOARD_WIDTH) temp)).
    intros temp r _.
    apply (foldM_pure _ (fun temp c => setCell temp r c (board g r c))).
    intros temp' c _. reflexivity.
  - intros r c [Hr Hc].
    apply (copy_rows_cells (board g)); apply elem_of_seqZ; lia.
Qed.

Lemma fold_left_ext_in {A S : Type} (f f' : S → A → S) (l : list A) :
  (∀ s a, a ∈ l → f s a = f' s a) → ∀ s, fold_left f l s = fold_left f' l s.
Proof.
  induction l as [|a l IH]; intros H s; simpl; [reflexivity|].
  rewrite (H s a) by now left. apply IH. intros s' a' Hin. apply H. now right.
Qed.

Lemma lockInto_cells (ty testX landingY testRot : Z) (blocks : list Z) :
  ∀ (t : Grid) (r c : Z), inBoard r c →
    fold_left
      (fun t i =>
         let blockX := testX + (block ty testRot i).1 in
         let blockY := landingY + (block ty testRot i).2 in
         if (blockY >=? 0) && (blockY <? BOARD_HEIGHT) && (blockX >=? 0) && (blockX <? BOARD_WIDTH)
         then setCell t blockY blockX (pieceColor ty)
         else t)
      blocks t r c =
    if existsb (fun i => (r =? landingY + (block ty testRot i).2)
                         && (c =? testX + (block ty testRot i).1)) blocks
    then pieceColor ty
    else t r c.
Proof.
  induction blocks as [|i blocks IH]; intros t r c Hin; simpl; [reflexivity|].
  rewrite IH by exact Hin.
  destruct (existsb _ blocks) eqn:Hrest; [now rewrite orb_true_r|].
  rewrite orb_false_r.
  destruct Hin as [Hr Hc]. unfold BOARD_HEIGHT, BOARD_WIDTH in *.
  destruct (Z.eqb_spec r (landingY + (block ty testRot i).2)) as [Er | Er];
    destruct (Z.eqb_spec c (testX + (block ty testRot i).1)) as [Ec | Ec]; simpl.
  - rewrite <- Er, <- Ec.
    replace ((r >=? 0) && (r <? 10) && (c >=? 0) && (c <? 7)) with true by lia.
    apply setCell_eq.
  - destruct (_ && _); [apply setCell_ne; right; lia | reflexivity].
  - destruct (_ && _); [apply setCell_ne; left; lia | reflexivity].
  - destruct (_ && _); [apply setCell_ne; left; lia | reflexivity].
Qed.

Lemma lockInto_snapshot (t b : Grid) (ty testX landingY testRot : Z) :
  sameCells t b →
  sameCells (lockInto t ty testX landingY testRot) (snapshot b ty testX landingY testRot).
Proof.
  intros Hsame r c Hin. unfold lockInto, snapshot.
  rewrite lockInto_cells by exact Hin. rewrite (Hsame r c Hin). reflexivity.
Qed.

(** The cells of the candidate's blocks are occupied in the snapshot; every
    other cell is as on the board. *)
Lemma snapshot_cells (b : Grid) (ty testX landingY testRot r c : Z) :
  validType ty →
  ((∃ i, 0 ≤ i < 4 ∧ r = landingY + (block ty testRot i).2
                   ∧ c = testX + (block ty testRot i).1) →
     snapshot b ty testX landingY testRot r c ≠ Black) ∧
  ((¬ ∃ i, 0 ≤ i < 4 ∧ r = landingY + (block ty testRot i).2
                     ∧ c = testX + (block ty testRot i).1) →
     snapshot b ty testX landingY testRot r c = b r c).
Proof.
  intros Hty. unfold snapshot.
  destruct (existsb _ (seqZ 0 4)) eqn:Hex.
  - split; [intros _; apply pieceColor_occupied, Hty|].
    intros Hno. exfalso. apply Hno.
    apply existsb_exists in Hex. destruct Hex as (i & Hi & Hmatch).
    apply list_elem_of_In, elem_of_seqZ in Hi. exists i. split; [lia|]. lia.
  - split; [|reflexivity].
    intros (i & Hi & -> & ->). exfalso.
    assert (Hin : In i (seqZ 0 4)) by (apply list_elem_of_In, elem_of_seqZ; lia).
    rewrite <- not_true_iff_false in Hex. apply Hex.
    apply existsb_exists. exists i. split; [exact Hin|]. rewrite !Z.eqb_refl. reflexivity.
Qed.

(** ** Scoring reads only the 70 cells *)

Lemma scanColumn_ext (t1 t2 : Grid) (col : Z) (rows : list Z) (st : bool * Z) :
  (∀ r, r ∈ rows → t1 r col = t2 r col) →
  fold_left (scanColumn t1 col) rows st = fold_left (scanColumn t2 col) rows st.
Proof.
  intros H. apply fold_left_ext_in. intros [f h] r Hin. unfold scanColumn.
  rewrite (H r Hin). reflexivity.
Qed.

Lemma countHoles_ext (t1 t2 : Grid) : sameCells t1 t2 → countHoles t1 = countHoles t2.
Proof.
  intros H. unfold countHoles. apply fold_left_ext_in. intros holes col Hc.
  rewrite (scanColumn_ext t1 t2); [reflexivity|].
  intros r Hr. apply H. apply elem_of_seqZ in Hc, Hr. split; lia.
Qed.

Lemma isFullLine_ext (t1 t2 : Grid) (r : Z) (cols : list Z) :
  (∀ c, c ∈ cols → t1 r c = t2 r c) → isFullLine t1 r cols = isFullLine t2 r cols.
Proof.
  induction cols as [|c cols IH]; intros H; simpl; [reflexivity|].
  rewrite (H c) by now left. rewrite IH; [reflexivity|].
  intros c' Hin. apply H. now right.
Qed.

Lemma countFullLines_ext (t1 t2 : Grid) : sameCells t1 t2 → countFullLines t1 = countFullLines t2.
Proof.
  intros H. unfold countFullLines. apply fold_left_ext_in. intros n r Hr.
  rewrite (isFullLine_ext t1 t2); [reflexivity|].
  intros c Hc. apply H. apply elem_of_seqZ in Hc, Hr. split; lia.
Qed.

Lemma columnHeight_ext (t1 t2 : Grid) (col : Z) (rows : list Z) :
  (∀ r, r ∈ rows → t1 r col = t2 r col) → columnHeight t1 col rows = columnHeight t2 col rows.
Proof.
  induction rows as [|r rows IH]; intros H; simpl; [reflexivity|].
  rewrite (H r) by now left. rewrite IH; [reflexivity|].
  intros r' Hin. apply H. now right.
Qed.

Lemma maxColumnHeight_ext (t1 t2 : Grid) : sameCells t1 t2 → maxColumnHeight t1 = maxColumnHeight t2.
Proof.
  intros H. unfold maxColumnHeight. apply fold_left_ext_in. intros m col Hc.
  rewrite (columnHeight_ext t1 t2); [reflexivity|].
  intros r Hr. apply H. apply elem_of_seqZ in Hc, Hr. split; lia.
Qed.

Lemma simulateCandidateScore_run (candidate : Piece) (testX landingY testRot : Z) (g : Game) :
  simulateCandidateScore candidate testX landingY testRot g =
  Some (let temp := snapshot (board g) (type candidate) testX landingY testRot in
        landingY - HOLE_PENALTY * countHoles temp + LINE_CLEAR_BONUS * countFullLines temp
        - MAX_HEIGHT_PENALTY * maxColumnHeight temp, g).
Proof.
  destruct (copyBoard_run g) as (temp0 & Hcopy & Hsame).
  unfold simulateCandidateScore. rewrite (bind_run_Some _ _ g g temp0 Hcopy).
  pose proof (lockInto_snapshot temp0 (board g) (type candidate) testX landingY testRot Hsame) as Hs.
  cbv zeta.
  rewrite (countHoles_ext _ _ Hs), (countFullLines_ext _ _ Hs), (maxColumnHeight_ext _ _ Hs).
  reflexivity.
Qed.

(** ** The hole count and the full-line count against their specifications *)

Lemma occupied_true (t : Grid) (r c : Z) : occupied t r c = true ↔ t r c ≠ Black.
Proof. unfold occupied. rewrite negb_true_iff, Z.eqb_neq. reflexivity. Qed.

Lemma occupied_false (t : Grid) (r c : Z) : occupied t r c = false ↔ t r c = Black.
Proof. unfold occupied. rewrite negb_false_iff, Z.eqb_eq. reflexivity. Qed.

Lemma isHole_spec (t : Grid) (r c : Z) :
  isHole t r c = true ↔ t r c = Black ∧ ∃ r', 0 ≤ r' < r ∧ t r' c ≠ Black.
Proof.
  unfold isHole. rewrite andb_true_iff, negb_true_iff, occupied_false, existsb_exists.
  split; intros [He (r' & H1 & H2)]; (split; [exact He|]); exists r'.
  - apply list_elem_of_In, elem_of_seqZ in H1. apply occupied_true in H2. split; [lia | exact H2].
  - split; [apply list_elem_of_In, elem_of_seqZ; lia | now apply occupied_true].
Qed.

Lemma rowFull_spec (t : Grid) (r : Z) :
  rowFull t r = true ↔ ∀ c, 0 ≤ c < BOARD_WIDTH → t r c ≠ Black.
Proof.
  unfold rowFull. rewrite forallb_forall. split.
  - intros H c Hc. apply occupied_true, H, list_elem_of_In, elem_of_seqZ. lia.
  - intros H c Hc. apply list_elem_of_In, elem_of_seqZ in Hc. apply occupied_true, H. lia.
Qed.

Lemma existsb_seqZ_succ (f : Z → bool) (k : Z) :
  0 ≤ k → existsb f (seqZ 0 (k + 1)) = existsb f (seqZ 0 k) || f k.
Proof.
  intros Hk. rewrite seqZ_app by lia. rewrite existsb_app.
  rewrite (seqZ_cons (0 + k) 1) by lia. simpl.
  rewrite orb_false_r, Z.add_0_l. reflexivity.
Qed.

Lemma scanColumn_count (t : Grid) (c : Z) (m : nat) :
  ∀ (k h : Z), 0 ≤ k →
    fold_left (scanColumn t c) (seqZ k (Z.of_nat m))
              (existsb (fun r' => occupied t r' c) (seqZ 0 k), h) =
    (existsb (fun r' => occupied t r' c) (seqZ 0 (k + Z.of_nat m)),
     h + Z.of_nat (length (List.filter (fun r => isHole t r c) (seqZ k (Z.of_nat m))))).
Proof.
  induction m as [|m IH]; intros k h Hk.
  - simpl. rewrite Z.add_0_r, Z.add_0_r. reflexivity.
  - rewrite seqZ_cons by lia.
    replace (Z.pred (Z.of_nat (S m))) with (Z.of_nat m) by lia.
    replace (k + Z.of_nat (S m)) with (Z.succ k + Z.of_nat m) by lia.
    simpl fold_left. simpl List.filter.
    change (negb (t k c =? Black)) with (occupied t k c).
    assert (Hh : isHole t k c =
                 negb (occupied t k c) && existsb (fun r' => occupied t r' c) (seqZ 0 k))
      by reflexivity.
    rewrite Hh. clear Hh.
    pose proof (existsb_seqZ_succ (fun r' => occupied t r' c) k Hk) as Hflag.
    replace (k + 1) with (Z.succ k) in Hflag by lia.
    destruct (occupied t k c) eqn:Hocc; simpl negb; simpl andb; cbv iota.
    + rewrite orb_true_r in Hflag. rewrite <- Hflag.
      apply IH. lia.
    + rewrite orb_false_r in Hflag.
      destruct (existsb _ (seqZ 0 k)) eqn:Hseen.
      * rewrite <- Hflag. rewrite IH by lia. simpl length. f_equal. lia.
      * rewrite <- Hflag. apply IH. lia.
Qed.

Lemma fold_left_add_sum {A : Type} (f : A → nat) (l : list A) :
  ∀ h, fold_left (fun holes a => holes + Z.of_nat (f a)) l h = h + Z.of_nat (sum_list_with f l).
Proof.
  induction l as [|a l IH]; intros h; simpl; [lia|].
  rewrite IH. lia.
Qed.

Lemma countHoles_spec (t : Grid) : countHoles t = holesSpec t.
Proof.
  unfold countHoles, holesSpec.
  rewrite (fold_left_ext_in _
             (fun holes col => holes + Z.of_nat
                (length (List.filter (fun r => isHole t r col) (seqZ 0 BOARD_HEIGHT))))).
  - rewrite fold_left_add_sum. lia.
  - intros holes col _.
    pose proof (scanColumn_count t col 10 0 holes ltac:(lia)) as H.
    change (Z.of_nat 10) with BOARD_HEIGHT in H.
    change (existsb (fun r' => occupied t r' col) (seqZ 0 0)) with false in H.
    rewrite H. reflexivity.
Qed.

Lemma isFullLine_forallb (t : Grid) (r : Z) (cols : list Z) :
  isFullLine t r cols = forallb (fun c => occupied t r c) cols.
Proof.
  induction cols as [|c cols IH]; simpl; [reflexivity|].
  unfold occupied at 1. destruct (t r c =? Black); simpl; [reflexivity | exact IH].
Qed.

Lemma fold_left_count (f : Z → bool) (l : list Z) :
  ∀ n, fold_left (fun linesCleared r => if f r then linesCleared + 1 else linesCleared) l n =
       n + Z.of_nat (length (List.filter f l)).
Proof.
  induction l as [|r l IH]; intros n; simpl; [lia|].
  rewrite IH. destruct (f r); simpl; lia.
Qed.

Lemma countFullLines_spec (t : Grid) : countFullLines t = clearedLinesSpec t.
Proof.
  unfold countFullLines, clearedLinesSpec.
  rewrite (fold_left_ext_in _ (fun linesCleared r => if rowFull t r then linesCleared + 1 else linesCleared)).
  - rewrite fold_left_count. lia.
  - intros n r _. rewrite isFullLine_forallb. reflexivity.
Qed.

(** ** The maximum column height *)

Lemma columnHeight_scan (t : Grid) (c : Z) (m : nat) :
  ∀ k,
    (columnHeight t c (seqZ k (Z.of_nat m)) = 0 ∧
     ∀ r, k ≤ r < k + Z.of_nat m → t r c = Black) ∨
    (∃ r, k ≤ r < k + Z.of_nat m ∧ t r c ≠ Black ∧
          (∀ r', k ≤ r' < r → t r' c = Black) ∧
          columnHeight t c (seqZ k (Z.of_nat m)) = BOARD_HEIGHT - r).
Proof.
  induction m as [|m IH]; intros k.
  - left. split; [reflexivity | intros r Hr; lia].
  - rewrite seqZ_cons by lia.
    replace (Z.pred (Z.of_nat (S m))) with (Z.of_nat m) by lia.
    simpl columnHeight.
    destruct (Z.eqb_spec (t k c) Black) as [He | Hne]; simpl negb; cbv iota.
    + destruct (IH (Z.succ k)) as [[H0 Hall] | (r & Hr & Hocc & Habove & Hh)].
      * left. split; [exact H0|]. intros r Hr.
        destruct (Z.eq_dec r k) as [-> | Hrk]; [exact He | apply Hall; lia].
      * right. exists r. split; [lia|]. split; [exact Hocc|]. split; [|exact Hh].
        intros r' Hr'. destruct (Z.eq_dec r' k) as [-> | Hrk]; [exact He | apply Habove; lia].
    + right. exists k. split; [lia|]. split; [exact Hne|]. split; [intros r' Hr'; lia | reflexivity].
Qed.

Lemma columnHeight_stackHeight (t : Grid) (c : Z) :
  stackHeight t c (columnHeight t c (seqZ 0 BOARD_HEIGHT)).
Proof.
  destruct (columnHeight_scan t c 10 0) as [[H0 Hall] | (r & Hr & Hocc & Habove & Hh)];
    change (Z.of_nat 10) with BOARD_HEIGHT in *.
  - left. split; [|exact H0]. intros r Hr. apply Hall. lia.
  - right. exists r. split; [|exact Hh].
    split; [lia|]. split; [exact Hocc|]. intros r' Hr'. apply Habove. lia.
Qed.

Lemma topmostOccupied_unique (t : Grid) (c r1 r2 : Z) :
  topmostOccupied t c r1 → topmostOccupied t c r2 → r1 = r2.
Proof.
  intros (Hr1 & Ho1 & Ha1) (Hr2 & Ho2 & Ha2).
  destruct (Z.lt_trichotomy r1 r2) as [Hlt | [Heq | Hgt]]; [|exact Heq|].
  - exfalso. apply Ho1, Ha2. lia.
  - exfalso. apply Ho2, Ha1. lia.
Qed.

Lemma stackHeight_unique (t : Grid) (c h1 h2 : Z) :
  stackHeight t c h1 → stackHeight t c h2 → h1 = h2.
Proof.
  intros [[He1 ->] | (r1 & Ht1 & ->)] [[He2 ->] | (r2 & Ht2 & ->)].
  - reflexivity.
  - exfalso. destruct Ht2 as (Hr & Ho & _). apply Ho, He1, Hr.
  - exfalso. destruct Ht1 as (Hr & Ho & _). apply Ho, He2, Hr.
  - rewrite (topmostOccupied_unique t c r1 r2 Ht1 Ht2). reflexivity.
Qed.

Lemma stackHeight_range (t : Grid) (c h : Z) : stackHeight t c h → 0 ≤ h ≤ BOARD_HEIGHT.
Proof.
  unfold BOARD_HEIGHT. intros [[_ ->] | (r & (Hr & _) & ->)]; unfold BOARD_HEIGHT in *; lia.
Qed.

Lemma fold_left_max (f : Z → Z) (l : list Z) :
  ∀ m0, let m := fold_left (fun maxHeight col => if f col >? maxHeight then f col else maxHeight) l m0 in
        m0 ≤ m ∧ (∀ c, c ∈ l → f c ≤ m) ∧ (m = m0 ∨ ∃ c, c ∈ l ∧ m = f c).
Proof.
  induction l as [|c l IH]; intros m0; simpl.
  - split; [lia|]. split; [intros c Hc; inversion Hc | now left].
  - destruct (IH (if f c >? m0 then f c else m0)) as (Hle & Hall & Hwit).
    assert (Hstep : m0 ≤ (if f c >? m0 then f c else m0) ∧ f c ≤ (if f c >? m0 then f c else m0))
      by (destruct (Z.gtb_spec (f c) m0); lia).
    split; [lia|]. split.
    + intros c' Hc'. inversion Hc'; subst; [lia | now apply Hall].
    + destruct Hwit as [Hm | (c' & Hc' & Hm)].
      * destruct (Z.gtb_spec (f c) m0); [right; exists c; split; [now left | exact Hm] | now left].
      * right. exists c'. split; [now right | exact Hm].
Qed.

Lemma maxColumnHeight_spec (t : Grid) : maxAcrossColumns (stackHeight t) (maxColumnHeight t).
Proof.
  destruct (fold_left_max (fun col => columnHeight t col (seqZ 0 BOARD_HEIGHT))
                          (seqZ 0 BOARD_WIDTH) 0) as (Hle & Hall & Hwit).
  fold (maxColumnHeight t) in Hle, Hall, Hwit.
  split.
  - destruct Hwit as [Hm | (c & Hc & Hm)].
    + exists 0. split; [unfold BOARD_WIDTH; lia|].
      pose proof (columnHeight_stackHeight t 0) as Hs.
      pose proof (stackHeight_range _ _ _ Hs) as Hr.
      pose proof (Hall 0 ltac:(apply elem_of_seqZ; unfold BOARD_WIDTH; lia)) as H0.
      replace (maxColumnHeight t) with (columnHeight t 0 (seqZ 0 BOARD_HEIGHT)) by lia.
      exact Hs.
    + exists c. apply elem_of_seqZ in Hc. split; [lia|].
      rewrite Hm. apply columnHeight_stackHeight.
  - intros c v Hc Hv.
    rewrite (stackHeight_unique t c v _ Hv (columnHeight_stackHeight t c)).
    apply Hall, elem_of_seqZ. lia.
Qed.

Lemma maxColumnHeight_range (t : Grid) : 0 ≤ maxColumnHeight t ≤ BOARD_HEIGHT.
Proof.
  destruct (maxColumnHeight_spec t) as [(c & _ & Hs) _].
  exact (stackHeight_range _ _ _ Hs).
Qed.

Lemma maxAcrossColumns_unique (quantity : Z → Z → Prop) (m1 m2 : Z) :
  maxAcrossColumns quantity m1 → maxAcrossColumns quantity m2 → m1 = m2.
Proof.
  intros [(c1 & Hc1 & Hq1) Hmax1] [(c2 & Hc2 & Hq2) Hmax2].
  pose proof (Hmax1 c2 m2 Hc2 Hq2). pose proof (Hmax2 c1 m1 Hc1 Hq1). lia.
Qed.

Lemma filter_length_le {A : Type} (f : A → bool) (l : list A) :
  (length (List.filter f l) ≤ length l)%nat.
Proof. induction l as [|a l IH]; simpl; [lia|]. destruct (f a); simpl; lia. Qed.

Lemma sum_list_with_bound {A : Type} (f : A → nat) (n : nat) (l : list A) :
  (∀ a, f a ≤ n)%nat → (sum_list_with f l ≤ n * length l)%nat.
Proof. intros H. induction l as [|a l IH]; simpl; [lia|]. specialize (H a). lia. Qed.

(** Every component of the score is bounded by the board size, so the
    sketch's [int] arithmetic cannot overflow, even with 16-bit [int]. *)
Lemma score_components_bounded (t : Grid) :
  0 ≤ countHoles t ≤ 70 ∧ 0 ≤ countFullLines t ≤ 10 ∧ 0 ≤ maxColumnHeight t ≤ 10.
Proof.
  rewrite countHoles_spec, countFullLines_spec. unfold holesSpec, clearedLinesSpec.
  split; [|split].
  - pose proof (sum_list_with_bound
                  (fun c => length (List.filter (fun r => isHole t r c) (seqZ 0 BOARD_HEIGHT)))
                  10 (seqZ 0 BOARD_WIDTH)) as H.
    rewrite length_seqZ in H. change (Z.to_nat BOARD_WIDTH) with 7%nat in H.
    assert (∀ c, (length (List.filter (fun r => isHole t r c) (seqZ 0 BOARD_HEIGHT)) ≤ 10)%nat) as Hc.
    { intros c. etransitivity; [apply filter_length_le|]. rewrite length_seqZ. reflexivity. }
    specialize (H Hc). lia.
  - pose proof (filter_length_le (rowFull t) (seqZ 0 BOARD_HEIGHT)) as H.
    rewrite length_seqZ in H. change (Z.to_nat BOARD_HEIGHT) with 10%nat in H. lia.
  - apply maxColumnHeight_range.
Qed.

(** For a landing row on the board every intermediate value of the score
    expression fits a 16-bit [int]. *)
Lemma score_fits_int16 (t : Grid) (landingY : Z) :
  0 ≤ landingY < BOARD_HEIGHT →
  let penalty := HOLE_PENALTY * countHoles t in
  let bonus := LINE_CLEAR_BONUS * countFullLines t in
  let height := MAX_HEIGHT_PENALTY * maxColumnHeight t in
  Forall (fun v => -32768 ≤ v ≤ 32767)
         [ penalty; landingY - penalty; bonus; landingY - penalty + bonus; height;
           landingY - penalty + bonus - height ].
Proof.
  intros Hy. pose proof (score_components_bounded t) as (Hh & Hl & Hm).
  unfold HOLE_PENALTY, LINE_CLEAR_BONUS, MAX_HEIGHT_PENALTY, BOARD_HEIGHT in *.
  cbv zeta. repeat constructor; lia.
Qed.

(** ** The best-placement search *)

Lemma candidateScore_run (fuel : nat) (g : Game) (rot col : Z) :
  (Z.to_nat BOARD_HEIGHT ≤ fuel)%nat →
  ∃ landingY score,
    dropLoop fuel col rot 0 g = Some (landingY, g) ∧
    simulateCandidateScore (currentPiece g) col landingY rot g = Some (score, g) ∧
    candidateScore fuel rot col g = Some (score, g) ∧
    0 ≤ landingY ∧ -10000 < score.
Proof.
  intros Hfuel. change (Z.to_nat BOARD_HEIGHT) with 10%nat in Hfuel.
  destruct (dropLoop_run fuel g col rot 0) as (ly & Hdrop & Hle & _);
    [change (Z.to_nat (BOARD_HEIGHT - 0)) with 10%nat; lia | lia |].
  pose proof (simulateCandidateScore_run (currentPiece g) col ly rot g) as Hsim.
  cbv zeta in Hsim.
  eexists ly, _. split; [exact Hdrop|]. split; [exact Hsim|]. split; [|split; [exact Hle|]].
  - unfold candidateScore. rewrite (bind_run_Some _ _ g g ly Hdrop).
    rewrite bind_run, getPiece_run. exact Hsim.
  - set (t := snapshot _ _ _ _ _).
    pose proof (score_components_bounded t) as (Hh & Hl & Hm).
    unfold HOLE_PENALTY, LINE_CLEAR_BONUS, MAX_HEIGHT_PENALTY. lia.
Qed.

Lemma scoreValue_run (fuel : nat) (g : Game) (rot col : Z) :
  (Z.to_nat BOARD_HEIGHT ≤ fuel)%nat →
  candidateScore fuel rot col g = Some (scoreValue fuel g (rot, col), g) ∧
  -10000 < scoreValue fuel g (rot, col).
Proof.
  intros Hfuel.
  destruct (candidateScore_run fuel g rot col Hfuel) as (ly & s & _ & _ & Hrun & _ & Hs).
  unfold scoreValue, eval. simpl. rewrite Hrun. split; [reflexivity | exact Hs].
Qed.

Lemma tryColumn_run (fuel : nat) (g : Game) (rot : Z) (best : Z * Z * Z) (col : Z) :
  (Z.to_nat BOARD_HEIGHT ≤ fuel)%nat →
  tryColumn fuel rot best col g =
  Some (keepBest (fun c => placementLegalb (board g) (type (currentPiece g)) c.1 c.2 0)
                 (scoreValue fuel g) best (rot, col), g).
Proof.
  intros Hfuel. unfold tryColumn, keepBest.
  rewrite bind_run, getPiece_run. simpl.
  rewrite bind_run, canPlace_run. simpl.
  destruct (placementLegalb _ _ _ _ _); simpl; [|reflexivity].
  destruct (candidateScore_run fuel g rot col Hfuel) as (ly & s & Hdrop & Hsim & Hrun & _).
  rewrite (bind_run_Some _ _ g g ly Hdrop).
  rewrite bind_run, getPiece_run. simpl.
  rewrite (bind_run_Some _ _ g g s Hsim).
  unfold scoreValue, eval. simpl. rewrite Hrun.
  destruct (s >? best.1.1); reflexivity.
Qed.

Lemma fold_left_map_step {A B S : Type} (step : S → B → S) (h : A → B) (l : list A) :
  ∀ s, fold_left step (map h l) s = fold_left (fun s a => step s (h a)) l s.
Proof. induction l as [|a l IH]; intros s; simpl; [reflexivity | apply IH]. Qed.

Lemma fold_left_flat_map {A B S : Type} (step : S → B → S) (f : A → list B) (l : list A) :
  ∀ s, fold_left (fun s a => fold_left step (f a) s) l s = fold_left step (flat_map f l) s.
Proof.
  induction l as [|a l IH]; intros s; simpl; [reflexivity|].
  rewrite fold_left_app. apply IH.
Qed.

Lemma findBestPlacement_run (fuel : nat) (g : Game) :
  (Z.to_nat BOARD_HEIGHT ≤ fuel)%nat →
  findBestPlacement fuel g =
  Some (let best :=
          fold_left (keepBest (fun c => placementLegalb (board g) (type (currentPiece g)) c.1 c.2 0)
                              (scoreValue fuel g))
                    (candidates (type (currentPiece g)))
                    (-10000, x (currentPiece g), rotation (currentPiece g)) in
        (best.1.2, best.2), g).
Proof.
  intros Hfuel. unfold findBestPlacement.
  rewrite bind_run, getPiece_run. cbv beta iota.
  set (step := keepBest _ _).
  rewrite (bind_run_Some _ _ g g
             (fold_left step (candidates (type (currentPiece g)))
                        (-10000, x (currentPiece g), rotation (currentPiece g)))).
  - reflexivity.
  - unfold candidates. rewrite <- fold_left_flat_map.
    apply foldM_pure. intros best rot _.
    unfold tryRotation. rewrite bind_run, getPiece_run. cbv beta iota zeta.
    rewrite fold_left_map_step.
    apply foldM_pure. intros best' col _. apply tryColumn_run, Hfuel.
Qed.

(** With any amount of fuel, a run that returns has left the state alone. *)
Lemma dropLoop_frame (fuel : nat) :
  ∀ (col rot y0 : Z) (g g' : Game) (landingY : Z),
    dropLoop fuel col rot y0 g = Some (landingY, g') → g' = g.
Proof.
  induction fuel as [|fuel IH]; intros col rot y0 g g' ly; simpl; [discriminate|].
  rewrite bind_run, getPiece_run. cbv beta iota.
  rewrite bind_run, canPlace_run. cbv beta iota.
  destruct (placementLegalb _ _ _ _ _).
  - apply IH.
  - intros H. inversion H. reflexivity.
Qed.

Lemma tryColumn_frame (fuel : nat) (rot : Z) (best best' : Z * Z * Z) (col : Z) (g g' : Game) :
  tryColumn fuel rot best col g = Some (best', g') → g' = g.
Proof.
  unfold tryColumn.
  rewrite bind_run, getPiece_run. cbv beta iota.
  rewrite bind_run, canPlace_run. cbv beta iota.
  destruct (placementLegalb _ _ _ _ _); simpl; [|intros H; inversion H; reflexivity].
  rewrite bind_run.
  destruct (dropLoop fuel col rot 0 g) as [[ly g1]|] eqn:Hdrop; [|discriminate].
  apply dropLoop_frame in Hdrop. subst g1.
  rewrite bind_run, getPiece_run. cbv beta iota.
  rewrite bind_run, simulateCandidateScore_run. cbv beta iota zeta.
  destruct (_ >? _); intros H; inversion H; reflexivity.
Qed.

Lemma foldM_frame {A S : Type} (body : S → A → M S) (l : list A) :
  (∀ s a g s' g', body s a g = Some (s', g') → g' = g) →
  ∀ s g s' g', foldM body l s g = Some (s', g') → g' = g.
Proof.
  intros Hbody. induction l as [|a l IH]; intros s g s' g'; simpl.
  - intros H. inversion H. reflexivity.
  - rewrite bind_run. destruct (body s a g) as [[s1 g1]|] eqn:Hstep; [|discriminate].
    apply Hbody in Hstep. subst g1. apply IH.
Qed.

Lemma findBestPlacement_frame (fuel : nat) (g g' : Game) (target : Z * Z) :
  findBestPlacement fuel g = Some (target, g') → g' = g.
Proof.
  unfold findBestPlacement. rewrite bind_run, getPiece_run. cbv beta iota.
  rewrite bind_run.
  destruct (foldM (tryRotation fuel) (seqZ 0 4) _ g) as [[best g1]|] eqn:Hloop; [|discriminate].
  intros H. inversion H. subst g'. clear H.
  revert Hloop. apply foldM_frame.
  intros best0 rot g0 best1 g2. unfold tryRotation.
  rewrite bind_run, getPiece_run. cbv beta iota zeta.
  apply foldM_frame. intros b c g3 b' g4. apply tryColumn_frame.
Qed.

(** The running best of a scan that replaces it on a strictly greater score
    only: either nothing beat the initial score, or the result is the first
    element of greatest score. *)
Lemma keepBest_first_greatest (legal : Z * Z → bool) (score : Z * Z → Z) (cs : list (Z * Z)) :
  ∀ best0,
    let best := fold_left (keepBest legal score) cs best0 in
    (best = best0 ∧ ∀ c, c ∈ cs → legal c = true → score c ≤ best0.1.1) ∨
    (∃ pre b post,
        cs = pre ++ b :: post ∧ legal b = true ∧ best = (score b, b.2, b.1) ∧
        best0.1.1 < score b ∧
        (∀ c, c ∈ pre → legal c = true → score c < score b) ∧
        (∀ c, c ∈ post → legal c = true → score c ≤ score b)).
Proof.
  induction cs as [|c cs IH]; intros best0; simpl.
  - left. split; [reflexivity | intros c Hc; inversion Hc].
  - destruct (legal c) eqn:Hlegal; [destruct (Z.gtb_spec (score c) best0.1.1) as [Hgt | Hle]|].
    + assert (Hstep : keepBest legal score best0 c = (score c, c.2, c.1)).
      { unfold keepBest. rewrite Hlegal. replace (score c >? best0.1.1) with true by lia.
        reflexivity. }
      rewrite Hstep.
      destruct (IH (score c, c.2, c.1))
        as [[Hbest Hall] | (pre & b & post & Hcs & Hb & Hbest & Hlt & Hpre & Hpost)].
      * right. exists [], c, cs. simpl in Hall.
        split; [reflexivity|]. split; [exact Hlegal|]. split; [exact Hbest|]. split; [lia|].
        split; [intros c' Hc'; inversion Hc' | exact Hall].
      * right. exists (c :: pre), b, post. simpl in Hlt.
        split; [rewrite Hcs; reflexivity|]. split; [exact Hb|]. split; [exact Hbest|].
        split; [lia|]. split; [|exact Hpost].
        intros c' Hc' Hl'. inversion Hc'; subst; [lia | now apply Hpre].
    + assert (Hstep : keepBest legal score best0 c = best0).
      { unfold keepBest. rewrite Hlegal. replace (score c >? best0.1.1) with false by lia.
        reflexivity. }
      rewrite Hstep.
      destruct (IH best0)
        as [[Hbest Hall] | (pre & b & post & Hcs & Hb & Hbest & Hlt & Hpre & Hpost)].
      * left. split; [exact Hbest|].
        intros c' Hc' Hl'. inversion Hc'; subst; [lia | now apply Hall].
      * right. exists (c :: pre), b, post.
        split; [rewrite Hcs; reflexivity|]. split; [exact Hb|]. split; [exact Hbest|].
        split; [lia|]. split; [|exact Hpost].
        intros c' Hc' Hl'. inversion Hc'; subst; [lia | now apply Hpre].
    + assert (Hstep : keepBest legal score best0 c = best0).
      { unfold keepBest. rewrite Hlegal. reflexivity. }
      rewrite Hstep.
      destruct (IH best0)
        as [[Hbest Hall] | (pre & b & post & Hcs & Hb & Hbest & Hlt & Hpre & Hpost)].
      * left. split; [exact Hbest|].
        intros c' Hc' Hl'. inversion Hc'; subst; [congruence | now apply Hall].
      * right. exists (c :: pre), b, post.
        split; [rewrite Hcs; reflexivity|]. split; [exact Hb|]. split; [exact Hbest|].
        split; [lia|]. split; [|exact Hpost].
        intros c' Hc' Hl'. inversion Hc'; subst; [congruence | now apply Hpre].
Qed.

(** ** The enumeration of the search *)

Lemma maxOffset_spec (ty rot : Z) : maxRightOffset ty rot (maxOffset ty rot).
Proof.
  destruct (fold_left_max (fun i => (block ty rot i).1) (seqZ 0 4) 0) as (Hle & Hall & Hwit).
  fold (maxOffset ty rot) in Hle, Hall, Hwit.
  split.
  - destruct Hwit as [Hm | (i & Hi & Hm)].
    + exists 0. split; [lia|].
      pose proof (Hall 0 ltac:(apply elem_of_seqZ; lia)) as H0. simpl in H0.
      pose proof (block_nonneg ty rot 0). lia.
    + exists i. apply elem_of_seqZ in Hi. split; [lia | now rewrite Hm].
  - intros i Hi. apply (Hall i), elem_of_seqZ. lia.
Qed.


Lemma block_leftmost (ty rot : Z) :
  validType ty → validRotation rot → ∃ i, 0 ≤ i < 4 ∧ (block ty rot i).1 = 0.
Proof.
  intros Hty Hrot.
  assert (H : existsb (fun i => (block ty rot i).1 =? 0) (seqZ 0 4) = true).
  { destruct (valid_type_cases ty Hty) as [-> | [-> | ->]];
      destruct (valid_rotation_cases rot Hrot) as [-> | [-> | [-> | ->]]]; reflexivity. }
  apply existsb_exists in H. destruct H as (i & Hi & Hz).
  apply list_elem_of_In, elem_of_seqZ in Hi. exists i. split; [lia | lia].
Qed.

Lemma elem_of_candidates (ty rot col : Z) :
  (rot, col) ∈ candidates ty ↔ (0 ≤ rot < 4) ∧ (0 ≤ col < BOARD_WIDTH - maxOffset ty rot).
Proof.
  unfold candidates. rewrite list_elem_of_In, in_flat_map. split.
  - intros (rot' & Hrot & Hin). apply in_map_iff in Hin. destruct Hin as (col' & Heq & Hcol).
    inversion Heq; subst. apply list_elem_of_In, elem_of_seqZ in Hrot, Hcol. lia.
  - intros [Hrot Hcol]. exists rot. split.
    + apply list_elem_of_In, elem_of_seqZ. lia.
    + apply in_map_iff. exists col. split; [reflexivity|].
      apply list_elem_of_In, elem_of_seqZ. lia.
Qed.

(** A placement legal at the spawn row is one of the enumerated pairs. *)
Lemma legal_in_candidates (b : Grid) (ty rot col : Z) :
  validType ty → validRotation rot → placementLegal b ty rot col 0 → (rot, col) ∈ candidates ty.
Proof.
  intros Hty Hrot Hlegal. apply elem_of_candidates. split; [exact Hrot|].
  destruct (block_leftmost ty rot Hty Hrot) as (i & Hi & Hz).
  destruct (maxOffset_spec ty rot) as [(j & Hj & Hm) _].
  destruct (Hlegal i Hi) as [[_ Hci] _]. destruct (Hlegal j Hj) as [[_ Hcj] _].
  unfold BOARD_WIDTH in *. lia.
Qed.

Lemma seqZ_sorted (n : nat) : ∀ a, StronglySorted Z.lt (seqZ a (Z.of_nat n)).
Proof.
  induction n as [|n IH]; intros a.
  - constructor.
  - rewrite seqZ_cons by lia. replace (Z.pred (Z.of_nat (S n))) with (Z.of_nat n) by lia.
    constructor; [apply IH|].
    apply Forall_seqZ. intros m Hm. lia.
Qed.

Lemma columns_sorted (rot : Z) (cols : list Z) :
  StronglySorted Z.lt cols → StronglySorted searchOrder (map (fun col => (rot, col)) cols).
Proof.
  induction 1 as [|col cols Hs IH Hall]; simpl; constructor; [exact IH|].
  rewrite Forall_forall in Hall. apply Forall_forall. intros c Hc.
  apply list_elem_of_In, in_map_iff in Hc. destruct Hc as (col' & <- & Hin).
  right. simpl. split; [reflexivity|]. apply Hall, list_elem_of_In, Hin.
Qed.

Lemma candidates_sorted (ty : Z) : StronglySorted searchOrder (candidates ty).
Proof.
  unfold candidates.
  assert (Hgen : ∀ rots, StronglySorted Z.lt rots →
            StronglySorted searchOrder
              (flat_map (fun rot => map (fun col => (rot, col))
                                        (seqZ 0 (BOARD_WIDTH - maxOffset ty rot))) rots)).
  { induction 1 as [|rot rots Hs IH Hall]; simpl; [constructor|].
    apply StronglySorted_app. split; [|split; [|exact IH]].
    - intros c1 c2 H1 H2.
      apply list_elem_of_In, in_map_iff in H1. destruct H1 as (col1 & <- & _).
      apply list_elem_of_In, in_flat_map in H2. destruct H2 as (rot2 & Hrot2 & Hin2).
      apply in_map_iff in Hin2. destruct Hin2 as (col2 & <- & _).
      left. simpl. rewrite Forall_forall in Hall. apply Hall, list_elem_of_In, Hrot2.
    - apply columns_sorted.
      destruct (Z_le_gt_dec 0 (BOARD_WIDTH - maxOffset ty rot)) as [Hnn | Hneg].
      + rewrite <- (Z2Nat.id _ Hnn). apply seqZ_sorted.
      + rewrite seqZ_nil by lia. constructor. }
  apply Hgen. apply (seqZ_sorted 4 0).
Qed.

Lemma searchOrder_asym (c1 c2 : Z * Z) : searchOrder c1 c2 → searchOrder c2 c1 → False.
Proof. unfold searchOrder. lia. Qed.

Lemma searchOrder_irrefl (c : Z * Z) : ¬ searchOrder c c.
Proof. unfold searchOrder. lia. Qed.

Lemma search_no_legal (fuel : nat) (g : Game) :
  (Z.to_nat BOARD_HEIGHT ≤ fuel)%nat →
  (∀ rot col, validRotation rot → ¬ legalAtSpawn g rot col) →
  findBestPlacement fuel g = Some ((x (currentPiece g), rotation (currentPiece g)), g).
Proof.
  intros Hfuel Hnone. rewrite (findBestPlacement_run fuel g Hfuel). cbv zeta.
  set (legal := fun c : Z * Z => placementLegalb (board g) (type (currentPiece g)) c.1 c.2 0).
  destruct (keepBest_first_greatest legal (scoreValue fuel g)
              (candidates (type (currentPiece g)))
              (-10000, x (currentPiece g), rotation (currentPiece g)))
    as [[-> _] | (pre & b & post & Hcs & Hb & _)]; [reflexivity|].
  exfalso. destruct b as [rot col].
  assert (Hin : (rot, col) ∈ candidates (type (currentPiece g)))
    by (rewrite Hcs; apply elem_of_app; right; now left).
  apply elem_of_candidates in Hin.
  apply (Hnone rot col); [exact (proj1 Hin)|].
  apply placementLegalb_spec. exact Hb.
Qed.

Lemma search_some_legal (fuel : nat) (g : Game) :
  (Z.to_nat BOARD_HEIGHT ≤ fuel)%nat →
  validType (type (currentPiece g)) →
  (∃ rot col, validRotation rot ∧ legalAtSpawn g rot col) →
  ∃ bestX bestRot,
    findBestPlacement fuel g = Some ((bestX, bestRot), g) ∧
    validRotation bestRot ∧ legalAtSpawn g bestRot bestX ∧
    ∀ rot col, validRotation rot → legalAtSpawn g rot col →
      scoreValue fuel g (rot, col) ≤ scoreValue fuel g (bestRot, bestX) ∧
      (searchOrder (rot, col) (bestRot, bestX) →
       scoreValue fuel g (rot, col) < scoreValue fuel g (bestRot, bestX)).
Proof.
  intros Hfuel Hty (rot0 & col0 & Hrot0 & Hlegal0).
  rewrite (findBestPlacement_run fuel g Hfuel). cbv zeta.
  set (legal := fun c : Z * Z => placementLegalb (board g) (type (currentPiece g)) c.1 c.2 0).
  pose proof (candidates_sorted (type (currentPiece g))) as Hsorted.
  destruct (keepBest_first_greatest legal (scoreValue fuel g)
              (candidates (type (currentPiece g)))
              (-10000, x (currentPiece g), rotation (currentPiece g)))
    as [[_ Hall] | (pre & b & post & Hcs & Hb & -> & _ & Hpre & Hpost)].
  - exfalso.
    pose proof (legal_in_candidates _ _ _ _ Hty Hrot0 Hlegal0) as Hin.
    specialize (Hall (rot0, col0) Hin (proj2 (placementLegalb_spec _ _ _ _ _) Hlegal0)).
    destruct (scoreValue_run fuel g rot0 col0 Hfuel) as [_ Hs]. simpl in Hall. lia.
  - destruct b as [brot bcol]. simpl. exists bcol, brot.
    assert (Hbin : (brot, bcol) ∈ candidates (type (currentPiece g)))
      by (rewrite Hcs; apply elem_of_app; right; now left).
    split; [reflexivity|].
    split; [exact (proj1 (proj1 (elem_of_candidates _ _ _) Hbin))|].
    split; [apply placementLegalb_spec; exact Hb|].
    intros rot col Hrot Hlegal.
    pose proof (legal_in_candidates _ _ _ _ Hty Hrot Hlegal) as Hin.
    pose proof (proj2 (placementLegalb_spec _ _ _ _ _) Hlegal) as Hlb.
    rewrite Hcs in Hin, Hsorted.
    apply StronglySorted_app in Hsorted. destruct Hsorted as (Hcross & _ & Hsb).
    apply StronglySorted_cons in Hsb. destruct Hsb as [Hafter _].
    rewrite Forall_forall in Hafter.
    apply elem_of_app in Hin. destruct Hin as [Hin | Hin].
    + specialize (Hpre _ Hin Hlb). split; [lia | intros _; exact Hpre].
    + apply elem_of_cons in Hin. destruct Hin as [Heq | Hin].
      * inversion Heq; subst. split; [lia|]. intros Ho. now apply searchOrder_irrefl in Ho.
      * specialize (Hpost _ Hin Hlb). split; [exact Hpost|].
        intros Ho. exfalso. apply (searchOrder_asym _ _ Ho). apply Hafter, Hin.
Qed.

(** ** clearLines *)

Lemma withBoard_same (g : Game) : withBoard (board g) g = g.
Proof. destruct g. reflexivity. Qed.

(** A loop whose iterations only rewrite the board. *)
Lemma foldM_board {A : Type} (body : unit → A → M unit) (f : Grid → A → Grid) (l : list A) :
  (∀ a g, body tt a g = Some (tt, withBoard (f (board g) a) g)) →
  ∀ g, foldM body l tt g = Some (tt, withBoard (fold_left f l (board g)) g).
Proof.
  intros Hbody. induction l as [|a l IH]; intros g; simpl.
  - rewrite withBoard_same. reflexivity.
  - rewrite (bind_run_Some _ _ g _ tt (Hbody a g)). rewrite IH. reflexivity.
Qed.

Lemma rowIsFull_run (r : Z) (cols : list Z) (g : Game) :
  rowIsFull r cols g = Some (isFullLine (board g) r cols, g).
Proof.
  induction cols as [|c cols IH]; simpl; [reflexivity|].
  rewrite bind_run, readBoard_run. simpl.
  destruct (board g r c =? Black); [reflexivity | exact IH].
Qed.

Lemma shiftRowsDown_run (r : Z) (g : Game) :
  shiftRowsDown r g = Some (tt, withBoard (shiftDownGrid (board g) r) g).
Proof.
  unfold shiftRowsDown, shiftDownGrid. apply foldM_board. intros row g'.
  unfold copyRowDown. apply foldM_board. intros c g''. reflexivity.
Qed.

Lemma clearTopRow_run (g : Game) :
  clearTopRow g = Some (tt, withBoard (clearTopGrid (board g)) g).
Proof. unfold clearTopRow, clearTopGrid. apply foldM_board. intros c g'. reflexivity. Qed.

Lemma clearLines_run (g : Game) :
  clearLines g = Some (tt, withBoard (fold_left clearStep (seqZ 0 BOARD_HEIGHT) (board g)) g).
Proof.
  unfold clearLines. apply foldM_board. intros r g'.
  rewrite bind_run, rowIsFull_run. cbv beta iota. unfold clearStep.
  destruct (isFullLine (board g') r (seqZ 0 BOARD_WIDTH)).
  - rewrite (bind_run_Some _ _ g' _ tt (shiftRowsDown_run r g')).
    rewrite clearTopRow_run. reflexivity.
  - rewrite withBoard_same. reflexivity.
Qed.

Lemma copyRowDown_cells (row : Z) (cols : list Z) :
  ∀ (b : Grid) (r' c' : Z),
    (r' = row → c' ∈ cols →
       fold_left (fun b c => setCell b row c (b (row - 1) c)) cols b r' c' = b (row - 1) c') ∧
    (r' ≠ row ∨ c' ∉ cols →
       fold_left (fun b c => setCell b row c (b (row - 1) c)) cols b r' c' = b r' c').
Proof.
  induction cols as [|c cols IH]; intros b r' c'; simpl.
  - split; [intros _ Hin; inversion Hin | reflexivity].
  - destruct (IH (setCell b row c (b (row - 1) c)) r' c') as [IHin IHout]. split.
    + intros -> Hin. destruct (decide (c' ∈ cols)) as [Hc | Hc].
      * rewrite IHin by auto. apply setCell_ne. left. lia.
      * rewrite IHout by now right.
        inversion Hin; subst; [apply setCell_eq | contradiction].
    + intros Hout. rewrite IHout.
      * apply setCell_ne. destruct Hout as [Hr | Hc]; [now left|].
        right. intros ->. apply Hc. now left.
      * destruct Hout as [Hr | Hc]; [now left|]. right. intros Hin. apply Hc. now right.
Qed.

Lemma shiftDownGrid_cells (n : nat) :
  ∀ (b : Grid) (r' c' : Z),
    (1 ≤ r' ≤ Z.of_nat n → 0 ≤ c' < BOARD_WIDTH →
       shiftDownGrid b (Z.of_nat n) r' c' = b (r' - 1) c') ∧
    (¬ (1 ≤ r' ≤ Z.of_nat n) ∨ ¬ (0 ≤ c' < BOARD_WIDTH) →
       shiftDownGrid b (Z.of_nat n) r' c' = b r' c').
Proof.
  induction n as [|n IH]; intros b r' c'.
  - split; [intros Hr; lia | reflexivity].
  - unfold shiftDownGrid. rewrite seqZ_S, rev_unit. simpl fold_left.
    fold (shiftDownGrid (copyRowDown b (1 + Z.of_nat n)) (Z.of_nat n)).
    destruct (IH (copyRowDown b (1 + Z.of_nat n)) r' c') as [IHin IHout].
    assert (Hrow : ∀ r c, (r = 1 + Z.of_nat n → 0 ≤ c < BOARD_WIDTH →
                            copyRowDown b (1 + Z.of_nat n) r c = b (r - 1) c) ∧
                          (r ≠ 1 + Z.of_nat n ∨ ¬ (0 ≤ c < BOARD_WIDTH) →
                            copyRowDown b (1 + Z.of_nat n) r c = b r c)).
    { intros r c.
      destruct (copyRowDown_cells (1 + Z.of_nat n) (seqZ 0 BOARD_WIDTH) b r c) as [Cin Cout].
      split.
      - intros -> Hc. unfold copyRowDown. rewrite Cin; auto. apply elem_of_seqZ. lia.
      - intros Hout. apply Cout. destruct Hout as [Hr | Hc]; [now left|].
        right. rewrite elem_of_seqZ. lia. }
    split.
    + intros Hr Hc. destruct (Z.eq_dec r' (1 + Z.of_nat n)) as [-> | Hne].
      * rewrite IHout by (left; lia). apply Hrow; auto.
      * rewrite IHin by lia. apply Hrow. left. lia.
    + intros Hout. rewrite IHout by (destruct Hout; [left; lia | now right]).
      apply Hrow. destruct Hout; [left; lia | now right].
Qed.

Lemma clearTopGrid_cells (b : Grid) (r' c' : Z) :
  (r' = 0 → 0 ≤ c' < BOARD_WIDTH → clearTopGrid b r' c' = Black) ∧
  (r' ≠ 0 ∨ ¬ (0 ≤ c' < BOARD_WIDTH) → clearTopGrid b r' c' = b r' c').
Proof.
  destruct (copy_row_cells (fun _ _ => Black) 0 (seqZ 0 BOARD_WIDTH) b r' c') as [Cin Cout].
  split.
  - intros Hr Hc. apply Cin; [exact Hr | apply elem_of_seqZ; lia].
  - intros Hout. apply Cout. destruct Hout as [Hr | Hc]; [now left|].
    right. rewrite elem_of_seqZ. lia.
Qed.

(** Clearing row [k]: the rows above move one row down, the top row is
    blanked, the rows below stay. *)
Lemma clear_row_cells (b : Grid) (k r c : Z) :
  0 ≤ k → 0 ≤ c < BOARD_WIDTH →
  clearTopGrid (shiftDownGrid b k) r c =
  if r =? 0 then Black else if (1 <=? r) && (r <=? k) then b (r - 1) c else b r c.
Proof.
  intros Hk Hc.
  destruct (clearTopGrid_cells (shiftDownGrid b k) r c) as [Tin Tout].
  destruct (Z.eqb_spec r 0) as [-> | Hr]; [now apply Tin|].
  rewrite Tout by now left.
  destruct (shiftDownGrid_cells (Z.to_nat k) b r c) as [Sin Sout].
  rewrite (Z2Nat.id k Hk) in Sin, Sout.
  destruct ((1 <=? r) && (r <=? k)) eqn:Hrange.
  - apply Sin; [lia | exact Hc].
  - apply Sout. left. lia.
Qed.

Lemma rowFull_ext (t1 t2 : Grid) (r1 r2 : Z) :
  (∀ c, 0 ≤ c < BOARD_WIDTH → t1 r1 c = t2 r2 c) → rowFull t1 r1 = rowFull t2 r2.
Proof.
  intros H. unfold rowFull.
  assert (Hgen : ∀ cols, (∀ c, c ∈ cols → 0 ≤ c < BOARD_WIDTH) →
            forallb (fun c => occupied t1 r1 c) cols = forallb (fun c => occupied t2 r2 c) cols).
  { induction cols as [|c cols IH]; intros Hin; simpl; [reflexivity|].
    unfold occupied at 1 3. rewrite (H c) by (apply Hin; now left).
    f_equal. apply IH. intros c' Hc'. apply Hin. now right. }
  apply Hgen. intros c Hc. apply elem_of_seqZ in Hc. lia.
Qed.

Lemma rowFull_blank (t : Grid) (r : Z) : t r 0 = Black → rowFull t r = false.
Proof.
  intros H0. destruct (rowFull t r) eqn:Hfull; [|reflexivity].
  exfalso. apply (proj1 (rowFull_spec t r) Hfull 0); [unfold BOARD_WIDTH; lia | exact H0].
Qed.

Lemma fullRowsBetween_empty (b : Grid) (k : Z) : fullRowsBetween b k (k + 1) = 0.
Proof. unfold fullRowsBetween. replace (k + 1 - k - 1) with 0 by lia. reflexivity. Qed.

Lemma fullRowsBetween_succ (b : Grid) (r k : Z) :
  r < k →
  fullRowsBetween b r (k + 1) = fullRowsBetween b r k + (if rowFull b k then 1 else 0).
Proof.
  intros Hlt. unfold fullRowsBetween.
  replace (k + 1 - r - 1) with ((k - r - 1) + 1) by lia.
  rewrite seqZ_app by lia. rewrite List.filter_app, length_app.
  replace (r + 1 + (k - r - 1)) with k by lia.
  rewrite (seqZ_cons k 1) by lia. simpl.
  destruct (rowFull b k); simpl; lia.
Qed.

Lemma fullRowsBetween_bound (b : Grid) (r k : Z) :
  r < k → 0 ≤ fullRowsBetween b r k ≤ k - r - 1.
Proof.
  intros Hlt. unfold fullRowsBetween.
  pose proof (filter_length_le (rowFull b) (seqZ (r + 1) (k - r - 1))) as H.
  rewrite length_seqZ in H. lia.
Qed.

Lemma fold_left_seqZ_invariant {St : Type} (f : St → Z → St) (P : Z → St → Prop) (n : nat) (s0 : St) :
  P 0 s0 →
  (∀ k s, 0 ≤ k < Z.of_nat n → P k s → P (k + 1) (f s k)) →
  P (Z.of_nat n) (fold_left f (seqZ 0 (Z.of_nat n)) s0).
Proof.
  intros H0. induction n as [|n IH]; intros Hstep.
  - exact H0.
  - rewrite seqZ_S, fold_left_app. simpl fold_left.
    replace (Z.of_nat (S n)) with (Z.of_nat n + 1) by lia.
    apply Hstep; [lia|]. apply IH. intros k s Hk. apply Hstep. lia.
Qed.

Lemma clearedAbove_start (b0 : Grid) : clearedAbove b0 0 b0.
Proof.
  split; [reflexivity|]. split; [|split].
  - intros r c Hr. exfalso. revert Hr. change (fullRowsBetween b0 (-1) 0) with 0. lia.
  - intros r Hr. lia.
  - intros r Hr. lia.
Qed.

Lemma clearedAbove_step (b0 b : Grid) (k : Z) :
  0 ≤ k < BOARD_HEIGHT → clearedAbove b0 k b → clearedAbove b0 (k + 1) (clearStep b k).
Proof.
  intros Hk (Hbelow & Hblank & Hkept & Hnofull).
  assert (Hrow : isFullLine b k (seqZ 0 BOARD_WIDTH) = rowFull b0 k).
  { rewrite isFullLine_forallb. apply rowFull_ext. intros c Hc. apply Hbelow; lia. }
  pose proof (fullRowsBetween_succ b0 (-1) k ltac:(lia)) as Hn.
  pose proof (fullRowsBetween_bound b0 (-1) k ltac:(lia)) as Hnb.
  unfold clearStep. rewrite Hrow.
  destruct (rowFull b0 k) eqn:Hfull.
  - assert (Hcell : ∀ r c, 0 ≤ c < BOARD_WIDTH →
              clearTopGrid (shiftDownGrid b k) r c =
              if r =? 0 then Black else if (1 <=? r) && (r <=? k) then b (r - 1) c else b r c)
      by (intros r c Hc; apply clear_row_cells; lia).
    split; [|split; [|split]].
    + intros r c Hr Hc. rewrite Hcell by exact Hc.
      replace (r =? 0) with false by lia. replace ((1 <=? r) && (r <=? k)) with false by lia.
      apply Hbelow; lia.
    + intros r c Hr Hc. rewrite Hcell by exact Hc.
      destruct (Z.eqb_spec r 0) as [_ | Hr0]; [reflexivity|].
      replace ((1 <=? r) && (r <=? k)) with true by lia.
      apply Hblank; lia.
    + intros r Hr Hnf c Hc.
      assert (r < k) as Hrk by (destruct (Z.eq_dec r k) as [-> | ?]; [congruence | lia]).
      rewrite (fullRowsBetween_succ b0 r k Hrk), Hfull.
      pose proof (fullRowsBetween_bound b0 r k Hrk) as Hb.
      rewrite Hcell by exact Hc.
      replace (r + (fullRowsBetween b0 r k + 1) =? 0) with false by lia.
      replace ((1 <=? r + (fullRowsBetween b0 r k + 1))
               && (r + (fullRowsBetween b0 r k + 1) <=? k)) with true by lia.
      replace (r + (fullRowsBetween b0 r k + 1) - 1) with (r + fullRowsBetween b0 r k) by lia.
      apply Hkept; [lia | exact Hnf | exact Hc].
    + intros r Hr. destruct (Z.eq_dec r 0) as [-> | Hr0].
      * apply rowFull_blank. rewrite Hcell by (unfold BOARD_WIDTH; lia). reflexivity.
      * rewrite (rowFull_ext _ b r (r - 1)); [apply Hnofull; lia|].
        intros c Hc. rewrite Hcell by exact Hc.
        replace (r =? 0) with false by lia.
        replace ((1 <=? r) && (r <=? k)) with true by lia. reflexivity.
  - split; [|split; [|split]].
    + intros r c Hr Hc. apply Hbelow; lia.
    + intros r c Hr Hc. apply Hblank; lia.
    + intros r Hr Hnf c Hc. destruct (Z.eq_dec r k) as [-> | Hne].
      * rewrite fullRowsBetween_empty, Z.add_0_r. apply Hbelow; lia.
      * rewrite (fullRowsBetween_succ b0 r k) by lia. rewrite Hfull, Z.add_0_r.
        apply Hkept; [lia | exact Hnf | exact Hc].
    + intros r Hr. destruct (Z.eq_dec r k) as [-> | Hne]; [|apply Hnofull; lia].
      rewrite <- Hfull. apply rowFull_ext. intros c Hc. apply Hbelow; lia.
Qed.

Lemma clearLines_cleared (b0 : Grid) :
  clearedAbove b0 BOARD_HEIGHT (fold_left clearStep (seqZ 0 BOARD_HEIGHT) b0).
Proof.
  apply (fold_left_seqZ_invariant clearStep (clearedAbove b0) 10 b0).
  - apply clearedAbove_start.
  - intros k b Hk. apply clearedAbove_step. unfold BOARD_HEIGHT. lia.
Qed.

(** ** The model at work *)

Example canPlace_on_empty_board :
  canPlace (mkPiece 0 0 1 0) 3 0 0 freshGame = Some (true, freshGame) ∧
  canPlace (mkPiece 0 0 1 0) 4 0 0 freshGame = Some (false, freshGame).
Proof. split; reflexivity. Qed.

(** The horizontal I piece falls to the bottom row in ten tests of the loop
    condition; nine units of fuel are not enough. *)
Example drop_on_empty_board :
  dropLoop 10 0 0 0 freshGame = Some (9, freshGame) ∧
  dropLoop 9 0 0 0 freshGame = None.
Proof. split; reflexivity. Qed.

Example score_on_empty_board :
  simulateCandidateScore (mkPiece 0 0 1 0) 0 9 0 freshGame = Some (9 - 3 * 0 + 10 * 0 - 1 * 1, freshGame).
Proof. reflexivity. Qed.

Example search_on_empty_board :
  findBestPlacement 10 freshGame = Some ((0, 0), freshGame).
Proof. reflexivity. Qed.

(** A vertical I piece dropped into the last column completes the bottom
    row. *)
Example drop_completes_row :
  dropLoop 10 6 1 0 (mkGame almostFullRowBoard (mkPiece 0 0 1 0) false)
  = Some (6, mkGame almostFullRowBoard (mkPiece 0 0 1 0) false) ∧
  countFullLines (snapshot almostFullRowBoard 0 6 6 1) = 1.
Proof. split; reflexivity. Qed.

(** Two consecutive full rows are both cleared in one pass. *)
Example clearLines_two_rows :
  (match clearLines (mkGame twoFullRowsBoard (mkPiece 1 0 2 0) false) with
   | Some (_, g') => occupiedRows (board g')
   | None => []
   end)
  = [ (9, [true; true; true; false; false; false; false]) ].
Proof. reflexivity. Qed.

(** * Main theorems *)

(** ** Candidate scoring *)

(** The O piece resting on the floor of the empty board: rows 0..7 are
    blank, so the greatest stack height is 2. *)
Lemma floorSnapshot_blank_above (r c : Z) : 0 ≤ r < 8 → floorSnapshot r c = Black.
Proof.
  intros Hr.
  assert (r = 0 ∨ r = 1 ∨ r = 2 ∨ r = 3 ∨ r = 4 ∨ r = 5 ∨ r = 6 ∨ r = 7)
    as [-> | [-> | [-> | [-> | [-> | [-> | [-> | ->]]]]]]] by lia; reflexivity.
Qed.

Lemma floorSnapshot_max_stack_height : maxAcrossColumns (stackHeight floorSnapshot) 2.
Proof.
  split.
  - exists 0. split; [unfold BOARD_WIDTH; lia|]. right. exists 8.
    split; [|reflexivity].
    split; [unfold BOARD_HEIGHT; lia|]. split; [vm_compute; discriminate|].
    intros r' Hr'. apply floorSnapshot_blank_above, Hr'.
  - intros c v _ [[_ ->] | (r & (Hr & Hocc & _) & ->)]; [lia|].
    unfold BOARD_HEIGHT in *.
    destruct (Z.le_gt_cases 8 r) as [Hle | Hgt]; [lia|].
    exfalso. apply Hocc, floorSnapshot_blank_above. lia.
Qed.

(** C1. For every board and every candidate (piece type, rotation, column,
    landing row), [simulateCandidateScore] returns
    landingY - 3 * holes + 10 * clearedLines - 1 * maxHeight, where, on the
    board with the candidate's four blocks locked in, [holes] is the number
    of empty cells with an occupied cell above them in their column, summed
    over the columns, [clearedLines] is the number of rows in which every
    column is occupied, and [maxHeight] is the greatest stack height of a
    column (such a maximum exists, and the equation holds for it).  The live
    state is returned as it was. *)
Theorem simulateCandidateScore_formula
    (g : Game) (candidate : Piece) (testX landingY testRot : Z) :
  validType (type candidate) → validRotation testRot →
  (∃ maxHeight,
     maxAcrossColumns
       (stackHeight (snapshot (board g) (type candidate) testX landingY testRot)) maxHeight) ∧
  ∀ maxHeight,
    maxAcrossColumns
      (stackHeight (snapshot (board g) (type candidate) testX landingY testRot)) maxHeight →
    simulateCandidateScore candidate testX landingY testRot g =
    Some (landingY
          - 3 * holesSpec (snapshot (board g) (type candidate) testX landingY testRot)
          + 10 * clearedLinesSpec (snapshot (board g) (type candidate) testX landingY testRot)
          - 1 * maxHeight,
          g).
Proof.
  intros _ _. split.
  - exists (maxColumnHeight (snapshot (board g) (type candidate) testX landingY testRot)).
    apply maxColumnHeight_spec.
  - intros maxHeight Hmax.
    rewrite (maxAcrossColumns_unique _ _ _ Hmax (maxColumnHeight_spec _)).
    rewrite simulateCandidateScore_run. cbv zeta.
    rewrite countHoles_spec, countFullLines_spec. reflexivity.
Qed.

Lemma simulateCandidateScore_formula_witness :
  maxAcrossColumns (stackHeight (snapshot emptyBoard 1 0 8 0)) 2 ∧
  simulateCandidateScore (mkPiece 1 0 2 0) 0 8 0 freshGame =
  Some (8 - 3 * holesSpec (snapshot emptyBoard 1 0 8 0)
        + 10 * clearedLinesSpec (snapshot emptyBoard 1 0 8 0)
        - 1 * 2, freshGame).
Proof.
  split; [exact floorSnapshot_max_stack_height|].
  destruct (simulateCandidateScore_formula freshGame (mkPiece 1 0 2 0) 0 8 0) as [_ Hscore].
  - unfold validType, NUM_TETROMINO. simpl. lia.
  - unfold validRotation. lia.
  - exact (Hscore 2 floorSnapshot_max_stack_height).
Defined.

(** ** Legality *)

(** C5. For every board, piece type, rotation 0..3 and anchor, [canPlace]
    returns true exactly when all four block coordinates are inside the 7x10
    board and on empty cells, returns false exactly when some block is
    outside the board or on an occupied cell, and leaves the state as it
    was. *)
Theorem canPlace_iff_legal (g : Game) (p : Piece) (newX newY newRotation : Z) :
  validType (type p) → validRotation newRotation →
  ∃ ok,
    canPlace p newX newY newRotation g = Some (ok, g) ∧
    (ok = true ↔ placementLegal (board g) (type p) newRotation newX newY) ∧
    (ok = false ↔
       ∃ i, 0 ≤ i < 4 ∧
            (¬ inBoard (newY + (block (type p) newRotation i).2)
                       (newX + (block (type p) newRotation i).1) ∨
             board g (newY + (block (type p) newRotation i).2)
                     (newX + (block (type p) newRotation i).1) ≠ Black)).
Proof.
  intros _ _. exists (placementLegalb (board g) (type p) newRotation newX newY).
  split; [apply canPlace_run|]. split; [apply placementLegalb_spec|].
  unfold placementLegalb. rewrite forallb_false_iff. split.
  - intros (i & Hi & Hfree). apply elem_of_seqZ in Hi. exists i. split; [lia|].
    unfold blockFree in Hfree. apply andb_false_iff in Hfree.
    destruct Hfree as [Hout | Hocc].
    + left. rewrite <- outOfBounds_false. apply negb_false_iff in Hout. congruence.
    + right. apply Z.eqb_neq. exact Hocc.
  - intros (i & Hi & Hbad). exists i. split; [apply elem_of_seqZ; lia|].
    destruct (blockFree _ _ _ _ _ i) eqn:Hfree; [|reflexivity].
    apply blockFree_spec in Hfree. destruct Hfree as [Hin Hempty].
    destruct Hbad as [Hout | Hocc]; contradiction.
Qed.

Lemma canPlace_iff_legal_witness :
  ∃ ok,
    canPlace (mkPiece 0 0 1 0) 1 0 0 freshGame = Some (ok, freshGame) ∧
    (ok = true ↔ placementLegal emptyBoard 0 0 1 0) ∧
    (ok = false ↔
       ∃ i, 0 ≤ i < 4 ∧
            (¬ inBoard (0 + (block 0 0 i).2) (1 + (block 0 0 i).1) ∨
             emptyBoard (0 + (block 0 0 i).2) (1 + (block 0 0 i).1) ≠ Black)).
Proof.
  apply (canPlace_iff_legal freshGame (mkPiece 0 0 1 0) 1 0 0).
  - unfold validType, NUM_TETROMINO. simpl. lia.
  - unfold validRotation. lia.
Defined.

(** ** Drop simulation *)

(** C6. For every column and rotation that is legal at the topmost row, the
    drop loop ends within H = 10 tests of its condition (ten units of fuel
    suffice, and more fuel gives the same row) and leaves the state as it
    was.  The row it yields is legal together with every row above it down
    to 0, the row below it is illegal, and it is the maximum row with that
    property. *)
Theorem dropLoop_lands (fuel : nat) (g : Game) (col rot : Z) :
  validType (type (currentPiece g)) → validRotation rot →
  legalAtSpawn g rot col →
  (Z.to_nat BOARD_HEIGHT ≤ fuel)%nat →
  ∃ landingY,
    dropLoop (Z.to_nat BOARD_HEIGHT) col rot 0 g = Some (landingY, g) ∧
    dropLoop fuel col rot 0 g = Some (landingY, g) ∧
    0 ≤ landingY < BOARD_HEIGHT ∧
    (∀ r, 0 ≤ r ≤ landingY → placementLegal (board g) (type (currentPiece g)) rot col r) ∧
    ¬ placementLegal (board g) (type (currentPiece g)) rot col (landingY + 1) ∧
    (∀ r, (∀ r', 0 ≤ r' ≤ r → placementLegal (board g) (type (currentPiece g)) rot col r') →
          r ≤ landingY).
Proof.
  intros _ _ Hspawn Hfuel. change (Z.to_nat BOARD_HEIGHT) with 10%nat in *.
  destruct (dropLoop_run 10 g col rot 0) as (y1 & Hrun1 & Hle1 & Hall1 & Hstop1);
    [change (Z.to_nat (BOARD_HEIGHT - 0)) with 10%nat; lia | lia |].
  destruct (dropLoop_run fuel g col rot 0) as (y2 & Hrun2 & Hle2 & Hall2 & Hstop2);
    [change (Z.to_nat (BOARD_HEIGHT - 0)) with 10%nat; lia | lia |].
  assert (Heq : y2 = y1).
  { destruct (Z.lt_trichotomy y1 y2) as [Hlt | [Heq | Hgt]]; [|now symmetry|].
    - exfalso. apply Hstop1, Hall2. lia.
    - exfalso. apply Hstop2, Hall1. lia. }
  subst y2. exists y1.
  assert (Hlegal : ∀ r, 0 ≤ r ≤ y1 → placementLegal (board g) (type (currentPiece g)) rot col r).
  { intros r Hr. destruct (Z.eq_dec r 0) as [-> | Hne]; [exact Hspawn | apply Hall1; lia]. }
  split; [exact Hrun1|]. split; [exact Hrun2|]. split; [|split; [exact Hlegal|split; [exact Hstop1|]]].
  - split; [exact Hle1|].
    apply (placementLegal_row_bound (board g) (type (currentPiece g)) rot col y1), Hlegal. lia.
  - intros r Hr. destruct (Z_le_gt_dec r y1) as [Hok | Hgt]; [exact Hok|].
    exfalso. apply Hstop1, Hr. lia.
Qed.

Lemma freshGame_legal_at_spawn : legalAtSpawn freshGame 0 1.
Proof.
  apply placementLegalb_spec. reflexivity.
Defined.

Lemma dropLoop_lands_witness :
  ∃ landingY,
    dropLoop (Z.to_nat BOARD_HEIGHT) 1 0 0 freshGame = Some (landingY, freshGame) ∧
    dropLoop 12 1 0 0 freshGame = Some (landingY, freshGame) ∧
    0 ≤ landingY < BOARD_HEIGHT ∧
    (∀ r, 0 ≤ r ≤ landingY → placementLegal emptyBoard 0 0 1 r) ∧
    ¬ placementLegal emptyBoard 0 0 1 (landingY + 1) ∧
    (∀ r, (∀ r', 0 ≤ r' ≤ r → placementLegal emptyBoard 0 0 1 r') → r ≤ landingY).
Proof.
  apply (dropLoop_lands 12 freshGame 1 0).
  - unfold validType, NUM_TETROMINO. simpl. lia.
  - unfold validRotation. lia.
  - exact freshGame_legal_at_spawn.
  - change (10 ≤ 12)%nat. lia.
Defined.

(** The landing row ends the first run of legal rows; it need not be the
    largest legal row of the column.  Under the locked cell of
    [overhangBoard] the O piece would fit again at row 8, but the drop from
    row 0 stops at row 1. *)
Remark drop_stops_above_overhang :
  dropLoop 10 0 0 0 overhangGame = Some (1, overhangGame) ∧
  placementLegal overhangBoard 1 0 0 8.
Proof.
  split; [reflexivity|]. apply placementLegalb_spec. reflexivity.
Qed.

(** ** Best-placement search *)

(** C2. For every board and every current piece, [findBestPlacement]
    returns a (column, rotation) pair and leaves the state as it was, and a
    second invocation in the same state returns the same pair.  Among the
    placements that are legal at the spawn row the returned pair is legal
    and has the greatest candidate score, and every legal placement that
    comes earlier in the enumeration order (rotation ascending, then column
    ascending) scores strictly less: a tie is kept by the first pair
    found. *)
Theorem findBestPlacement_first_greatest (fuel : nat) (g : Game) :
  (Z.to_nat BOARD_HEIGHT ≤ fuel)%nat →
  validType (type (currentPiece g)) →
  ∃ bestX bestRot,
    findBestPlacement fuel g = Some ((bestX, bestRot), g) ∧
    (first ← findBestPlacement fuel; second ← findBestPlacement fuel; mret (first, second)) g =
    Some (((bestX, bestRot), (bestX, bestRot)), g) ∧
    ∀ rot col, validRotation rot → legalAtSpawn g rot col →
      validRotation bestRot ∧ legalAtSpawn g bestRot bestX ∧
      ∃ bestScore score,
        candidateScore fuel bestRot bestX g = Some (bestScore, g) ∧
        candidateScore fuel rot col g = Some (score, g) ∧
        score ≤ bestScore ∧
        (searchOrder (rot, col) (bestRot, bestX) → score < bestScore).
Proof.
  intros Hfuel Hty.
  pose proof (findBestPlacement_run fuel g Hfuel) as Hrun. cbv zeta in Hrun.
  set (best := fold_left _ _ _) in Hrun.
  exists best.1.2, best.2. split; [exact Hrun|]. split.
  - rewrite (bind_run_Some _ _ g g _ Hrun). rewrite (bind_run_Some _ _ g g _ Hrun).
    reflexivity.
  - intros rot col Hrot Hlegal.
    destruct (search_some_legal fuel g Hfuel Hty)
      as (bestX & bestRot & Hrun' & Hbrot & Hblegal & Hbest);
      [exists rot, col; split; assumption|].
    rewrite Hrun in Hrun'. inversion Hrun' as [[Hx Hr]]. rewrite Hx, Hr.
    split; [exact Hbrot|]. split; [exact Hblegal|].
    exists (scoreValue fuel g (bestRot, bestX)), (scoreValue fuel g (rot, col)).
    split; [apply scoreValue_run, Hfuel|]. split; [apply scoreValue_run, Hfuel|].
    apply Hbest; assumption.
Qed.

Lemma findBestPlacement_first_greatest_witness :
  ∃ bestX bestRot,
    findBestPlacement 10 freshGame = Some ((bestX, bestRot), freshGame) ∧
    validRotation bestRot ∧ legalAtSpawn freshGame bestRot bestX ∧
    ∃ bestScore score,
      candidateScore 10 bestRot bestX freshGame = Some (bestScore, freshGame) ∧
      candidateScore 10 0 1 freshGame = Some (score, freshGame) ∧
      score ≤ bestScore.
Proof.
  destruct (findBestPlacement_first_greatest 10 freshGame)
    as (bestX & bestRot & Hrun & _ & Hbest).
  - change (10 ≤ 10)%nat. lia.
  - unfold validType, NUM_TETROMINO. simpl. lia.
  - destruct (Hbest 0 1) as (Hrot & Hlegal & bestScore & score & Hb & Hs & Hle & _).
    + unfold validRotation. lia.
    + exact freshGame_legal_at_spawn.
    + exists bestX, bestRot. split; [exact Hrun|]. split; [exact Hrot|]. split; [exact Hlegal|].
      exists bestScore, score. split; [exact Hb|]. split; [exact Hs | exact Hle].
Defined.

(** C7. Running the best-placement search, with the drop simulation and the
    scoring of the candidates it enumerates, leaves every cell of the live
    board as it was before the call: whenever the search returns, the state
    it returns is the state it was run in, and with fuel for BOARD_HEIGHT
    tests of the drop loop it does return.  The same holds of the drop loop
    and of the scoring of each single candidate, which writes only to its
    local copy. *)
Theorem search_leaves_board (fuel : nat) (g : Game) :
  (Z.to_nat BOARD_HEIGHT ≤ fuel)%nat →
  (∀ fuel' target g',
      findBestPlacement fuel' g = Some (target, g') →
      g' = g ∧ ∀ r c, board g' r c = board g r c) ∧
  (∃ target, findBestPlacement fuel g = Some (target, g)) ∧
  (∀ rot col, ∃ landingY score,
      dropLoop fuel col rot 0 g = Some (landingY, g) ∧
      simulateCandidateScore (currentPiece g) col landingY rot g = Some (score, g)).
Proof.
  intros Hfuel. split; [|split].
  - intros fuel' target g' Hrun. apply findBestPlacement_frame in Hrun. subst g'.
    split; reflexivity.
  - eexists. apply findBestPlacement_run, Hfuel.
  - intros rot col.
    destruct (candidateScore_run fuel g rot col Hfuel) as (ly & s & Hdrop & Hsim & _).
    exists ly, s. split; assumption.
Qed.

Lemma search_leaves_board_witness :
  (∀ fuel' target g',
      findBestPlacement fuel' overhangGame = Some (target, g') →
      g' = overhangGame ∧ ∀ r c, board g' r c = board overhangGame r c) ∧
  (∃ target, findBestPlacement 10 overhangGame = Some (target, overhangGame)) ∧
  (∀ rot col, ∃ landingY score,
      dropLoop 10 col rot 0 overhangGame = Some (landingY, overhangGame) ∧
      simulateCandidateScore (currentPiece overhangGame) col landingY rot overhangGame
      = Some (score, overhangGame)).
Proof.
  apply (search_leaves_board 10 overhangGame). change (10 ≤ 10)%nat. lia.
Defined.



(** ** Incremental move selection *)

Lemma movePiece_run (newX newRotation : Z) (g : Game) :
  movePiece newX newRotation g =
  Some (tt, mkGame (board g)
                   (mkPiece (type (currentPiece g)) newRotation newX (y (currentPiece g)))
                   (gameOver g)).
Proof. reflexivity. Qed.

Lemma clockwise_step (rot : Z) :
  validRotation rot → uint8 ((rot + 1) `rem` 4) = (rot + 1) `mod` 4.
Proof.
  intros H. destruct (valid_rotation_cases rot H) as [-> | [-> | [-> | ->]]]; reflexivity.
Qed.

Ltac run_canPlace H :=
  rewrite bind_run, canPlace_run; cbv beta iota;
  match goal with
  | |- context [if placementLegalb ?b ?t ?r ?c ?row then _ else _] =>
      destruct (placementLegalb b t r c row) eqn:H
  end.

Ltac legal_to_prop :=
  repeat match goal with
    | H : placementLegalb _ _ _ _ _ = true |- _ => apply placementLegalb_spec in H
    | H : placementLegalb ?b ?t ?r ?c ?row = false |- _ =>
        assert (¬ placementLegal b t r c row) by (rewrite <- placementLegalb_spec; congruence);
        clear H
    end.

Ltac finish_move Hfind :=
  eexists; split; [exact Hfind|]; split; [first [apply movePiece_run | reflexivity]|];
  legal_to_prop; simpl;
  repeat split; intros; try contradiction; try lia; auto.

(** C9. In the branch without random error ([roll >= 10]) at most one action
    is applied per tick, and the board and the game-over flag are left alone.
    If the rotation differs from the target rotation, one clockwise rotation
    step is tried at the current column, then one column left, then one
    column right, and if all three are illegal the rotation and the position
    stay as they are.  If the rotation matches the target, the piece moves
    one column toward the target column when that step is legal, and stays
    otherwise. *)
Theorem strategic_move_single_step (fuel : nat) (g : Game) (roll move : Z) :
  10 ≤ roll →
  (Z.to_nat BOARD_HEIGHT ≤ fuel)%nat →
  validRotation (rotation (currentPiece g)) →
  ∃ bestX bestRot g',
    findBestPlacement fuel g = Some ((bestX, bestRot), g) ∧
    performStrategicMove fuel roll move g = Some (tt, g') ∧
    (∀ r c, board g' r c = board g r c) ∧ gameOver g' = gameOver g ∧
    type (currentPiece g') = type (currentPiece g) ∧
    y (currentPiece g') = y (currentPiece g) ∧
    let p := currentPiece g in
    let p' := currentPiece g' in
    let newRot := (rotation p + 1) `mod` 4 in
    let legal := fun col rot => placementLegal (board g) (type p) rot col (y p) in
    (rotation p ≠ bestRot →
       (legal (x p) newRot → rotation p' = newRot ∧ x p' = x p) ∧
       (¬ legal (x p) newRot → legal (x p - 1) newRot →
          rotation p' = newRot ∧ x p' = x p - 1) ∧
       (¬ legal (x p) newRot → ¬ legal (x p - 1) newRot → legal (x p + 1) newRot →
          rotation p' = newRot ∧ x p' = x p + 1) ∧
       (¬ legal (x p) newRot → ¬ legal (x p - 1) newRot → ¬ legal (x p + 1) newRot →
          rotation p' = rotation p ∧ x p' = x p)) ∧
    (rotation p = bestRot →
       rotation p' = rotation p ∧
       (x p < bestX → legal (x p + 1) (rotation p) → x p' = x p + 1) ∧
       (x p < bestX → ¬ legal (x p + 1) (rotation p) → x p' = x p) ∧
       (x p > bestX → legal (x p - 1) (rotation p) → x p' = x p - 1) ∧
       (x p > bestX → ¬ legal (x p - 1) (rotation p) → x p' = x p) ∧
       (x p = bestX → x p' = x p)).
Proof.
  intros Hroll Hfuel Hrot.
  pose proof (findBestPlacement_run fuel g Hfuel) as Hfind. cbv zeta in Hfind.
  set (best := fold_left _ _ _) in Hfind.
  exists best.1.2, best.2.
  unfold performStrategicMove. replace (roll <? 10) with false by lia.
  rewrite (bind_run_Some _ _ g g _ Hfind). cbv beta zeta. simpl fst. simpl snd.
  rewrite bind_run, getPiece_run. cbv beta iota.
  rewrite (clockwise_step _ Hrot).
  set (p := currentPiece g). set (newRot := (rotation p + 1) `mod` 4).
  destruct (Z.eqb_spec (rotation p) best.2) as [Heq | Hne]; cbn [negb].
  - destruct (Z.ltb_spec (x p) best.1.2) as [Hlt | Hge];
      [|destruct (Z.gtb_spec (x p) best.1.2) as [Hgt | Hle]].
    + run_canPlace Hok; finish_move Hfind.
    + run_canPlace Hok; finish_move Hfind.
    + finish_move Hfind.
  - run_canPlace Hok; [finish_move Hfind|].
    run_canPlace HokL; [finish_move Hfind|].
    run_canPlace HokR; finish_move Hfind.
Qed.

Lemma strategic_move_single_step_witness :
  ∃ bestX bestRot g',
    findBestPlacement 10 freshGame = Some ((bestX, bestRot), freshGame) ∧
    performStrategicMove 10 50 0 freshGame = Some (tt, g') ∧
    (∀ r c, board g' r c = board freshGame r c) ∧ gameOver g' = gameOver freshGame.
Proof.
  destruct (strategic_move_single_step 10 freshGame 50 0)
    as (bestX & bestRot & g' & Hfind & Hmove & Hboard & Hover & _).
  - lia.
  - change (10 ≤ 10)%nat. lia.
  - unfold validRotation. simpl. lia.
  - exists bestX, bestRot, g'. repeat split; assumption.
Defined.

(** ** Line clearing *)

(** C10. After [clearLines] returns no row of the board is fully occupied.
    Every row that was not full keeps its cells, moved down by the number of
    full rows that were below it, and as many rows as were cleared are blank
    at the top.  The piece and the game-over flag are left alone. *)
Theorem clearLines_leaves_no_full_row (g : Game) :
  ∃ g',
    clearLines g = Some (tt, g') ∧
    currentPiece g' = currentPiece g ∧ gameOver g' = gameOver g ∧
    (∀ r, 0 ≤ r < BOARD_HEIGHT → rowFull (board g') r = false) ∧
    (∀ r, 0 ≤ r < BOARD_HEIGHT → rowFull (board g) r = false →
       ∀ c, 0 ≤ c < BOARD_WIDTH →
         board g' (r + fullRowsBelow (board g) r) c = board g r c) ∧
    (∀ r c, 0 ≤ r < clearedLinesSpec (board g) → 0 ≤ c < BOARD_WIDTH →
       board g' r c = Black).
Proof.
  eexists. split; [apply clearLines_run|].
  destruct (clearLines_cleared (board g)) as (_ & Hblank & Hkept & Hnofull).
  split; [reflexivity|]. split; [reflexivity|]. simpl.
  split; [exact Hnofull|]. split; [exact Hkept | exact Hblank].
Qed.

(** ** The height component of the score *)

(** C3 (amended). In the candidate score the max-height component is the
    maximum, across the columns of the board with the candidate locked in, of
    the column's stack height: the distance from the topmost occupied cell of
    the column down to the bottom board edge ([BOARD_HEIGHT] minus its row),
    0 for an empty column. *)
Theorem score_height_is_stack_height
    (g : Game) (candidate : Piece) (testX landingY testRot : Z) :
  validType (type candidate) → validRotation testRot →
  ∃ maxHeight,
    maxAcrossColumns
      (stackHeight (snapshot (board g) (type candidate) testX landingY testRot)) maxHeight ∧
    simulateCandidateScore candidate testX landingY testRot g =
    Some (landingY
          - 3 * holesSpec (snapshot (board g) (type candidate) testX landingY testRot)
          + 10 * clearedLinesSpec (snapshot (board g) (type candidate) testX landingY testRot)
          - 1 * maxHeight, g).
Proof.
  intros _ _.
  exists (maxColumnHeight (snapshot (board g) (type candidate) testX landingY testRot)).
  split; [apply maxColumnHeight_spec|].
  rewrite simulateCandidateScore_run. cbv zeta.
  rewrite countHoles_spec, countFullLines_spec. reflexivity.
Qed.

Lemma score_height_is_stack_height_witness :
  ∃ maxHeight,
    maxAcrossColumns (stackHeight (snapshot emptyBoard 1 0 8 0)) maxHeight ∧
    simulateCandidateScore (mkPiece 1 0 2 0) 0 8 0 freshGame =
    Some (8 - 3 * holesSpec (snapshot emptyBoard 1 0 8 0)
          + 10 * clearedLinesSpec (snapshot emptyBoard 1 0 8 0)
          - 1 * maxHeight, freshGame).
Proof.
  apply (score_height_is_stack_height freshGame (mkPiece 1 0 2 0) 0 8 0).
  - unfold validType, NUM_TETROMINO. simpl. lia.
  - unfold validRotation. lia.
Defined.

Lemma floorSnapshot_topmost : topmostOccupied floorSnapshot 0 8.
Proof.
  split; [unfold BOARD_HEIGHT; lia|]. split; [vm_compute; discriminate|].
  intros r' Hr'.
  assert (r' = 0 ∨ r' = 1 ∨ r' = 2 ∨ r' = 3 ∨ r' = 4 ∨ r' = 5 ∨ r' = 6 ∨ r' = 7)
    as [-> | [-> | [-> | [-> | [-> | [-> | [-> | ->]]]]]]] by lia; reflexivity.
Qed.

(** C3, as stated, fails.  For the O piece resting on the floor of the empty
    board the score is 8 - 0 + 0 - 2: the height component is 2, the height
    of the stack, whereas the distance from the top board edge to the
    topmost occupied cell is 8 rows (9 when the cell itself is counted). *)
Lemma score_height_not_top_distance :
  simulateCandidateScore (mkPiece 1 0 2 0) 0 8 0 freshGame = Some (8 - 3 * 0 + 10 * 0 - 1 * 2, freshGame) ∧
  (¬ ∃ maxHeight,
       maxAcrossColumns (topDistance 0 floorSnapshot) maxHeight ∧
       simulateCandidateScore (mkPiece 1 0 2 0) 0 8 0 freshGame =
       Some (8 - 3 * holesSpec floorSnapshot + 10 * clearedLinesSpec floorSnapshot
             - 1 * maxHeight, freshGame)) ∧
  (¬ ∃ maxHeight,
       maxAcrossColumns (topDistance 1 floorSnapshot) maxHeight ∧
       simulateCandidateScore (mkPiece 1 0 2 0) 0 8 0 freshGame =
       Some (8 - 3 * holesSpec floorSnapshot + 10 * clearedLinesSpec floorSnapshot
             - 1 * maxHeight, freshGame)).
Proof.
  assert (Hrun : simulateCandidateScore (mkPiece 1 0 2 0) 0 8 0 freshGame = Some (6, freshGame))
    by reflexivity.
  assert (Hholes : holesSpec floorSnapshot = 0) by reflexivity.
  assert (Hlines : clearedLinesSpec floorSnapshot = 0) by reflexivity.
  split; [exact Hrun|].
  split; intros (m & [_ Hmax] & Hscore);
    rewrite Hrun, Hholes, Hlines in Hscore;
    assert (Hm : m = 2) by (inversion Hscore; lia); subst m.
  - specialize (Hmax 0 (8 + 0) ltac:(unfold BOARD_WIDTH; lia)).
    assert (8 + 0 ≤ 2); [|lia].
    apply Hmax. right. exists 8. split; [exact floorSnapshot_topmost | reflexivity].
  - specialize (Hmax 0 (8 + 1) ltac:(unfold BOARD_WIDTH; lia)).
    assert (8 + 1 ≤ 2); [|lia].
    apply Hmax. right. exists 8. split; [exact floorSnapshot_topmost | reflexivity].
Qed.

(** ** No legal placement *)

Lemma uint8_valid_type (rnd : Z) : validType rnd → uint8 rnd = rnd.
Proof. unfold validType, NUM_TETROMINO, uint8. intros H. apply Z.mod_small. lia. Qed.

(** C4 (amended). Whenever no (rotation, column) placement of the piece is
    legal at the spawn row, [spawnPiece] surfaces the board-full condition to
    its caller by setting [gameOver]; the board is left alone.  The
    best-placement search has no signal of its own: run in that state it
    returns the column and rotation the piece already has and changes
    nothing. *)
Theorem no_legal_placement_is_game_over (fuel : nat) (g : Game) (rnd : Z) :
  (Z.to_nat BOARD_HEIGHT ≤ fuel)%nat →
  validType rnd →
  (∀ rot col, validRotation rot → ¬ placementLegal (board g) rnd rot col 0) →
  ∃ g',
    spawnPiece rnd g = Some (tt, g') ∧
    gameOver g' = true ∧
    type (currentPiece g') = rnd ∧
    (∀ r c, board g' r c = board g r c) ∧
    findBestPlacement fuel g' =
    Some ((x (currentPiece g'), rotation (currentPiece g')), g').
Proof.
  intros Hfuel Hty Hnone.
  unfold spawnPiece. rewrite (uint8_valid_type rnd Hty). cbv zeta.
  set (spawnX := if rnd =? 0 then _ else _).
  unfold mbind at 1. unfold M_bind. unfold setPiece at 1. cbv beta iota.
  rewrite bind_run, getPiece_run. cbv beta iota. simpl currentPiece.
  rewrite bind_run, canPlace_run. cbv beta iota. simpl.
  assert (Hspawn : placementLegalb (board g) rnd 0 spawnX 0 = false).
  { destruct (placementLegalb (board g) rnd 0 spawnX 0) eqn:Hok; [|reflexivity].
    exfalso. apply (Hnone 0 spawnX); [unfold validRotation; lia|].
    apply placementLegalb_spec, Hok. }
  rewrite Hspawn. simpl.
  eexists. split; [reflexivity|]. simpl.
  split; [reflexivity|]. split; [reflexivity|]. split; [reflexivity|].
  apply search_no_legal; [exact Hfuel|]. exact Hnone.
Qed.

Lemma blockedBoard_no_legal :
  ∀ rot col, validRotation rot → ¬ placementLegal blockedBoard 0 rot col 0.
Proof.
  intros rot col Hrot Hlegal.
  assert (Hcol : 0 ≤ col < 7).
  { destruct (Hlegal 0 ltac:(lia)) as [[_ Hc] _].
    destruct (valid_rotation_cases rot Hrot) as [-> | [-> | [-> | ->]]];
      simpl in Hc; unfold BOARD_WIDTH in Hc; lia. }
  apply placementLegalb_spec in Hlegal.
  assert (col = 0 ∨ col = 1 ∨ col = 2 ∨ col = 3 ∨ col = 4 ∨ col = 5 ∨ col = 6)
    as [-> | [-> | [-> | [-> | [-> | [-> | ->]]]]]] by lia;
    destruct (valid_rotation_cases rot Hrot) as [-> | [-> | [-> | ->]]];
    vm_compute in Hlegal; discriminate.
Qed.

Lemma no_legal_placement_is_game_over_witness :
  ∃ g',
    spawnPiece 0 blockedGame = Some (tt, g') ∧
    gameOver g' = true ∧
    type (currentPiece g') = 0 ∧
    (∀ r c, board g' r c = board blockedGame r c) ∧
    findBestPlacement 10 g' = Some ((x (currentPiece g'), rotation (currentPiece g')), g').
Proof.
  apply (no_legal_placement_is_game_over 10 blockedGame 0).
  - change (10 ≤ 10)%nat. lia.
  - unfold validType, NUM_TETROMINO. lia.
  - exact blockedBoard_no_legal.
Defined.

(** C4, as stated, fails for the search.  On [blockedBoard] no placement of
    the I piece is legal at the spawn row, not even the one the piece stands
    at, yet [findBestPlacement] returns exactly that column and rotation and
    the game-over flag is still unset after the call. *)
Lemma search_defaults_to_current_position :
  (∀ rot col, validRotation rot → ¬ legalAtSpawn blockedGame rot col) ∧
  ∃ g',
    findBestPlacement 10 blockedGame =
    Some ((x (currentPiece blockedGame), rotation (currentPiece blockedGame)), g') ∧
    gameOver g' = false.
Proof.
  split; [exact blockedBoard_no_legal|].
  exists blockedGame. split; [|reflexivity].
  apply search_no_legal; [change (10 ≤ 10)%nat; lia | exact blockedBoard_no_legal].
Qed.

(** * The rest of the sketch *)

(** ** The matrix mapping *)

Lemma elem_of_boardCells (r c : Z) : (r, c) ∈ boardCells ↔ inBoard r c.
Proof.
  unfold boardCells, inBoard. rewrite list_elem_of_In, in_flat_map. split.
  - intros (r' & Hr & Hin). apply in_map_iff in Hin. destruct Hin as (c' & Heq & Hc).
    inversion Heq; subst. apply list_elem_of_In, elem_of_seqZ in Hr, Hc. lia.
  - intros [Hr Hc]. exists r. split; [apply list_elem_of_In, elem_of_seqZ; lia|].
    apply in_map_iff. exists c. split; [reflexivity | apply list_elem_of_In, elem_of_seqZ; lia].
Qed.

Lemma matrixAt_serpentine (r c : Z) : inBoard r c → matrixAt r c = serpentine r c.
Proof.
  intros Hin. apply elem_of_boardCells in Hin.
  assert (Hall : forallb (fun cell => matrixAt cell.1 cell.2 =? serpentine cell.1 cell.2)
                         boardCells = true) by reflexivity.
  rewrite forallb_forall in Hall.
  apply list_elem_of_In in Hin. apply Hall in Hin. apply Z.eqb_eq in Hin. exact Hin.
Qed.

Lemma matrixAt_range (r c : Z) : inBoard r c → 0 ≤ matrixAt r c < NUM_LEDS.
Proof.
  intros Hin. rewrite (matrixAt_serpentine r c Hin).
  destruct Hin as [Hr Hc]. unfold serpentine, NUM_LEDS, BOARD_HEIGHT, BOARD_WIDTH in *.
  destruct (Z.even c); lia.
Qed.

Lemma matrixAt_inj (r c r' c' : Z) :
  inBoard r c → inBoard r' c' → matrixAt r c = matrixAt r' c' → r = r' ∧ c = c'.
Proof.
  intros Hin Hin'. rewrite (matrixAt_serpentine r c Hin), (matrixAt_serpentine r' c' Hin').
  destruct Hin as [Hr Hc], Hin' as [Hr' Hc'].
  unfold serpentine, BOARD_HEIGHT, BOARD_WIDTH in *.
  assert (c = 0 ∨ c = 1 ∨ c = 2 ∨ c = 3 ∨ c = 4 ∨ c = 5 ∨ c = 6)
    as [-> | [-> | [-> | [-> | [-> | [-> | ->]]]]]] by lia;
    assert (c' = 0 ∨ c' = 1 ∨ c' = 2 ∨ c' = 3 ∨ c' = 4 ∨ c' = 5 ∨ c' = 6)
      as [-> | [-> | [-> | [-> | [-> | [-> | ->]]]]]] by lia;
    simpl; lia.
Qed.

Lemma matrixAt_onto (k : Z) :
  0 ≤ k < NUM_LEDS → ∃ r c, inBoard r c ∧ matrixAt r c = k.
Proof.
  intros Hk. unfold NUM_LEDS in Hk.
  set (c := 6 - k `div` 10).
  set (r := if Z.even c then 9 - k `mod` 10 else k `mod` 10).
  assert (Hq : 0 ≤ k `div` 10 ≤ 6 ∧ 0 ≤ k `mod` 10 < 10 ∧ k = 10 * (k `div` 10) + k `mod` 10)
    by (Z.div_mod_to_equations; lia).
  assert (Hin : inBoard r c).
  { unfold inBoard, BOARD_HEIGHT, BOARD_WIDTH. subst r c. destruct (Z.even _); lia. }
  exists r, c. split; [exact Hin|].
  rewrite (matrixAt_serpentine r c Hin). unfold serpentine. subst r.
  destruct (Z.even c); subst c; lia.
Qed.

(** ** clearBoard and lockPiece *)

Lemma clearBoard_run (g : Game) :
  clearBoard g =
  Some (tt, withBoard
              (fold_left (fun b r => fold_left (fun b c => setCell b r c Black)
                                               (seqZ 0 BOARD_WIDTH) b)
                         (seqZ 0 BOARD_HEIGHT) (board g)) g).
Proof.
  unfold clearBoard. apply foldM_board. intros r g'.
  apply foldM_board. intros c g''. reflexivity.
Qed.

Lemma clearBoard_cells (g : Game) :
  ∃ g', clearBoard g = Some (tt, g') ∧
        currentPiece g' = currentPiece g ∧ gameOver g' = gameOver g ∧
        ∀ r c, inBoard r c → board g' r c = Black.
Proof.
  eexists. split; [apply clearBoard_run|]. split; [reflexivity|]. split; [reflexivity|].
  intros r c [Hr Hc].
  destruct (copy_rows_cells (fun _ _ => Black) (seqZ 0 BOARD_WIDTH) (seqZ 0 BOARD_HEIGHT)
                            (board g) r c) as [Hcell _].
  apply Hcell; apply elem_of_seqZ; lia.
Qed.

(** A loop whose iterations only rewrite the board, by a rule that may
    depend on the piece. *)
Lemma foldM_board_piece {A : Type} (body : unit → A → M unit) (f : Grid → A → Grid)
    (p : Piece) (l : list A) :
  (∀ a g, currentPiece g = p → body tt a g = Some (tt, withBoard (f (board g) a) g)) →
  ∀ g, currentPiece g = p →
       foldM body l tt g = Some (tt, withBoard (fold_left f l (board g)) g).
Proof.
  intros Hbody. induction l as [|a l IH]; intros g Hp; simpl.
  - rewrite withBoard_same. reflexivity.
  - rewrite (bind_run_Some _ _ g _ tt (Hbody a g Hp)). rewrite IH by exact Hp. reflexivity.
Qed.

Lemma lockPiece_run (g : Game) :
  lockPiece g =
  Some (tt, withBoard (lockInto (board g) (type (currentPiece g)) (x (currentPiece g))
                                (y (currentPiece g)) (rotation (currentPiece g))) g).
Proof.
  unfold lockPiece. rewrite bind_run, getPiece_run. cbv beta iota zeta.
  unfold lockInto.
  apply (foldM_board_piece _ _ (currentPiece g)); [|reflexivity].
  intros i g' Hp. rewrite bind_run, getPiece_run. cbv beta iota zeta. rewrite Hp.
  destruct (_ && _); [reflexivity|].
  rewrite withBoard_same. reflexivity.
Qed.

(** ** updateDisplay *)

Lemma setLed_eq (leds : Leds) (i : Z) (v : CRGB) : setLed leds i v i = v.
Proof. unfold setLed. rewrite Z.eqb_refl. reflexivity. Qed.

Lemma setLed_ne (leds : Leds) (i j : Z) (v : CRGB) : j ≠ i → setLed leds i v j = leds j.
Proof. intros H. unfold setLed. destruct (Z.eqb_spec j i); [contradiction | reflexivity]. Qed.

Lemma drawCell_fold (b : Grid) (cells : list (Z * Z)) :
  (∀ cell, cell ∈ cells → inBoard cell.1 cell.2) →
  ∀ (leds : Leds) (r c : Z), inBoard r c →
    ((r, c) ∈ cells → b r c ≠ Black →
       fold_left (drawCell b) cells leds (matrixAt r c) = b r c) ∧
    ((r, c) ∉ cells ∨ b r c = Black →
       fold_left (drawCell b) cells leds (matrixAt r c) = leds (matrixAt r c)).
Proof.
  induction cells as [|cell cells IH]; intros Hcells leds r c Hin; simpl.
  - split; [intros H; inversion H | reflexivity].
  - assert (Hrest : ∀ cell', cell' ∈ cells → inBoard cell'.1 cell'.2)
      by (intros cell' H; apply Hcells; now right).
    destruct (IH Hrest (drawCell b leds cell) r c Hin) as [IHin IHout].
    assert (Hcell : inBoard cell.1 cell.2) by (apply Hcells; now left).
    assert (Hstep : (r, c) = cell → b r c ≠ Black → drawCell b leds cell (matrixAt r c) = b r c).
    { intros <- Hocc. unfold drawCell. simpl.
      destruct (Z.eqb_spec (b r c) Black); [contradiction|]. apply setLed_eq. }
    assert (Hskip : (r, c) ≠ cell ∨ b r c = Black →
                    drawCell b leds cell (matrixAt r c) = leds (matrixAt r c)).
    { intros Hor. unfold drawCell.
      destruct (Z.eqb_spec (b cell.1 cell.2) Black) as [He | Hne]; [reflexivity|].
      simpl. apply setLed_ne. intros Heq.
      destruct (matrixAt_inj r c cell.1 cell.2 Hin Hcell Heq) as [Hr Hc].
      destruct cell as [r' c']. simpl in *. subst r' c'.
      destruct Hor as [Hor | Hor]; [now apply Hor | contradiction]. }
    split.
    + intros Hmem Hocc. destruct (decide ((r, c) ∈ cells)) as [Hc | Hc]; [now apply IHin|].
      rewrite IHout by now left.
      inversion Hmem; subst; [now apply Hstep | contradiction].
    + intros Hor. rewrite IHout.
      * apply Hskip. destruct Hor as [Hn | He]; [|now right].
        left. intros <-. apply Hn. now left.
      * destruct Hor as [Hn | He]; [|now right]. left. intros H. apply Hn. now right.
Qed.

Lemma drawBoard_cells (b : Grid) (r c : Z) : inBoard r c → drawBoard b (matrixAt r c) = b r c.
Proof.
  intros Hin.
  destruct (drawCell_fold b boardCells
              (fun cell H => proj1 (elem_of_boardCells cell.1 cell.2)
                                   ltac:(destruct cell; exact H))
              (fun _ => Black) r c Hin) as [Hocc Hblank].
  unfold drawBoard. destruct (Z.eq_dec (b r c) Black) as [He | Hne].
  - rewrite Hblank by now right. now rewrite He.
  - apply Hocc; [apply elem_of_boardCells, Hin | exact Hne].
Qed.

Lemma overlayPiece_cells (cur : Piece) (blocks : list Z) :
  ∀ (leds : Leds) (r c : Z), inBoard r c →
    fold_left
      (fun leds i =>
         let blockX := x cur + (block (type cur) (rotation cur) i).1 in
         let blockY := y cur + (block (type cur) (rotation cur) i).2 in
         if (blockX >=? 0) && (blockX <? BOARD_WIDTH) && (blockY >=? 0) && (blockY <? BOARD_HEIGHT)
         then setLed leds (matrixAt blockY blockX) (pieceColor (type cur))
         else leds)
      blocks leds (matrixAt r c) =
    if existsb (fun i => (r =? y cur + (block (type cur) (rotation cur) i).2)
                         && (c =? x cur + (block (type cur) (rotation cur) i).1)) blocks
    then pieceColor (type cur)
    else leds (matrixAt r c).
Proof.
  induction blocks as [|i blocks IH]; intros leds r c Hin; simpl; [reflexivity|].
  rewrite IH by exact Hin.
  destruct (existsb _ blocks) eqn:Hrest; [now rewrite orb_true_r|].
  rewrite orb_false_r.
  set (bx := x cur + (block (type cur) (rotation cur) i).1).
  set (by_ := y cur + (block (type cur) (rotation cur) i).2).
  destruct ((bx >=? 0) && (bx <? BOARD_WIDTH) && (by_ >=? 0) && (by_ <? BOARD_HEIGHT)) eqn:Hguard.
  - assert (Hb : inBoard by_ bx) by (unfold inBoard; lia).
    destruct ((r =? by_) && (c =? bx)) eqn:Hmatch.
    + assert (r = by_ ∧ c = bx) as [-> ->] by lia. apply setLed_eq.
    + apply setLed_ne. intros Heq.
      destruct (matrixAt_inj r c by_ bx Hin Hb Heq). lia.
  - destruct ((r =? by_) && (c =? bx)) eqn:Hmatch; [|reflexivity].
    exfalso. destruct Hin as [Hr Hc]. lia.
Qed.

Lemma updateDisplay_run (g : Game) :
  updateDisplay g = Some (overlayPiece (drawBoard (board g)) (currentPiece g), g).
Proof.
  unfold updateDisplay.
  rewrite (bind_run_Some _ _ g g (drawBoard (board g))).
  - rewrite bind_run, getPiece_run. reflexivity.
  - unfold drawBoard, boardCells. rewrite <- fold_left_flat_map.
    apply foldM_pure. intros leds r _. rewrite fold_left_map_step.
    apply foldM_pure. intros leds' c _.
    rewrite bind_run, readBoard_run. cbv beta iota. unfold drawCell. simpl.
    destruct (negb _); reflexivity.
Qed.

(** ** Spawning *)

Lemma spawnPiece_run (rnd : Z) (g : Game) :
  validType rnd →
  spawnPiece rnd g =
  Some (tt, mkGame (board g) (mkPiece rnd 0 (spawnColumn rnd) 0)
                   (if placementLegalb (board g) rnd 0 (spawnColumn rnd) 0
                    then gameOver g else true)).
Proof.
  intros Hty. unfold spawnPiece. rewrite (uint8_valid_type rnd Hty). cbv zeta.
  fold (spawnColumn rnd).
  rewrite bind_run. unfold setPiece at 1. cbv beta iota.
  rewrite bind_run, getPiece_run. cbv beta iota. simpl currentPiece.
  rewrite bind_run, canPlace_run. cbv beta iota. simpl.
  destruct (placementLegalb _ _ _ _ _); reflexivity.
Qed.

Lemma spawn_blocks_in_board (ty i : Z) :
  validType ty → 0 ≤ i < 4 →
  inBoard (0 + (block ty 0 i).2) (spawnColumn ty + (block ty 0 i).1).
Proof.
  intros Hty Hi.
  destruct (valid_type_cases ty Hty) as [-> | [-> | ->]];
    assert (i = 0 ∨ i = 1 ∨ i = 2 ∨ i = 3) as [-> | [-> | [-> | ->]]] by lia;
    vm_compute; repeat split; discriminate.
Qed.

Lemma spawn_legal_on_empty (b : Grid) (ty : Z) :
  boardEmpty b → validType ty → placementLegal b ty 0 (spawnColumn ty) 0.
Proof.
  intros Hempty Hty i Hi.
  pose proof (spawn_blocks_in_board ty i Hty Hi) as Hin.
  split; [exact Hin | apply Hempty, Hin].
Qed.

Lemma boardEmpty_noFullRow (b : Grid) : boardEmpty b → noFullRow b.
Proof.
  intros Hempty r Hr. apply rowFull_blank, Hempty.
  split; [exact Hr | unfold BOARD_WIDTH; lia].
Qed.

(** ** The strategic move keeps the piece on free cells *)

Lemma clockwise_valid (rot : Z) : validRotation ((rot + 1) `mod` 4).
Proof. unfold validRotation. apply Z.mod_pos_bound. lia. Qed.

Ltac step_canPlace H := run_canPlace H; cbv beta iota.

Ltac finish_keep :=
  eexists; split; [first [apply movePiece_run | reflexivity]|];
  legal_to_prop; unfold pieceLegal in *;
  cbn [board gameOver currentPiece type rotation x y];
  split; [reflexivity|]; split; [reflexivity|]; split; [reflexivity|]; split; [reflexivity|];
  split; [first [assumption | apply clockwise_valid]|];
  split; [assumption | lia].

Lemma performStrategicMove_keeps_legal (fuel : nat) (g : Game) (roll move : Z) :
  (Z.to_nat BOARD_HEIGHT ≤ fuel)%nat →
  validRotation (rotation (currentPiece g)) →
  pieceLegal g →
  ∃ g',
    performStrategicMove fuel roll move g = Some (tt, g') ∧
    board g' = board g ∧ gameOver g' = gameOver g ∧
    type (currentPiece g') = type (currentPiece g) ∧
    y (currentPiece g') = y (currentPiece g) ∧
    validRotation (rotation (currentPiece g')) ∧
    pieceLegal g' ∧
    x (currentPiece g) - 1 ≤ x (currentPiece g') ≤ x (currentPiece g) + 1.
Proof.
  intros Hfuel Hrot Hlegal.
  unfold performStrategicMove. destruct (roll <? 10).
  - rewrite bind_run, getPiece_run. cbv beta iota.
    destruct (move =? 0).
    + step_canPlace HokL; [finish_keep|].
      destruct (move =? 1); [step_canPlace HokR; finish_keep | rewrite bind_run; cbv beta iota; finish_keep].
    + rewrite bind_run. cbv beta iota. simpl.
      destruct (move =? 1); [step_canPlace HokR; finish_keep | rewrite bind_run; cbv beta iota; finish_keep].
  - pose proof (findBestPlacement_run fuel g Hfuel) as Hfind. cbv zeta in Hfind.
    set (best := fold_left _ _ _) in Hfind.
    rewrite (bind_run_Some _ _ g g _ Hfind). cbv beta zeta. simpl fst. simpl snd.
    rewrite bind_run, getPiece_run. cbv beta iota.
    rewrite (clockwise_step _ Hrot).
    destruct (Z.eqb_spec (rotation (currentPiece g)) best.2) as [Heq | Hne]; cbn [negb].
    + destruct (Z.ltb_spec (x (currentPiece g)) best.1.2) as [Hlt | Hge];
        [|destruct (Z.gtb_spec (x (currentPiece g)) best.1.2) as [Hgt | Hle]].
      * step_canPlace Hok; finish_keep.
      * step_canPlace Hok; finish_keep.
      * finish_keep.
    + step_canPlace Hok; [finish_keep|].
      step_canPlace HokL; [finish_keep|].
      step_canPlace HokR; finish_keep.
Qed.

(** ** One update of the game *)

Lemma setPiece_run (p : Piece) (g : Game) :
  setPiece p g = Some (tt, mkGame (board g) p (gameOver g)).
Proof. reflexivity. Qed.

Lemma fall_or_land_run (rnd : Z) (g : Game) :
  validType rnd →
  let cur := currentPiece g in
  let landed :=
    fold_left clearStep (seqZ 0 BOARD_HEIGHT)
              (lockInto (board g) (type cur) (x cur) (y cur) (rotation cur)) in
  (cur0 ← getPiece;
   ok ← canPlace cur0 (x cur0) (y cur0 + 1) (rotation cur0);
   if (ok : bool) then setPiece (mkPiece (type cur0) (rotation cur0) (x cur0) (y cur0 + 1))
   else lockPiece;; clearLines;; spawnPiece rnd) g =
  Some (tt,
        if placementLegalb (board g) (type cur) (rotation cur) (x cur) (y cur + 1)
        then mkGame (board g) (mkPiece (type cur) (rotation cur) (x cur) (y cur + 1)) (gameOver g)
        else mkGame landed (mkPiece rnd 0 (spawnColumn rnd) 0)
                    (if placementLegalb landed rnd 0 (spawnColumn rnd) 0
                     then gameOver g else true)).
Proof.
  intros Hty cur landed.
  rewrite bind_run, getPiece_run. cbv beta iota.
  rewrite bind_run, canPlace_run. cbv beta iota. fold cur.
  destruct (placementLegalb _ _ _ _ _); [reflexivity|].
  rewrite (bind_run_Some _ _ g _ tt (lockPiece_run g)).
  rewrite (bind_run_Some _ _ _ _ tt (clearLines_run _)).
  rewrite spawnPiece_run by exact Hty. reflexivity.
Qed.

Lemma gameUpdate_inPlay (fuel : nat) (roll move rnd : Z) (g : Game) :
  (Z.to_nat BOARD_HEIGHT ≤ fuel)%nat → validType rnd →
  inPlay g → gameOver g = false →
  ∃ g', gameUpdate fuel roll move rnd g = Some (tt, g') ∧ inPlay g'.
Proof.
  intros Hfuel Hrnd (Hrows & Hty & Hrot & Hplay) Hover.
  destruct (Hplay Hover) as [Hlegal (rot0 & col0 & Hrot0 & Hspawn)].
  destruct (performStrategicMove_keeps_legal fuel g roll move Hfuel Hrot Hlegal)
    as (g1 & Hmove & Hboard & Hover1 & Htype & Hy & Hrot1 & Hlegal1 & _).
  unfold gameUpdate. rewrite (bind_run_Some _ _ g g1 tt Hmove).
  rewrite (fall_or_land_run rnd g1 Hrnd). cbv zeta.
  eexists. split; [reflexivity|].
  destruct (placementLegalb (board g1) _ _ _ (y (currentPiece g1) + 1)) eqn:Hfall.
  - apply placementLegalb_spec in Hfall.
    split; [simpl; rewrite Hboard; exact Hrows|].
    split; [simpl; rewrite Htype; exact Hty|].
    split; [exact Hrot1|].
    intros _. split; [exact Hfall|].
    exists rot0, col0. split; [exact Hrot0|].
    unfold legalAtSpawn in *. simpl. rewrite Hboard, Htype. exact Hspawn.
  - set (landed := fold_left clearStep _ _).
    assert (Hnofull : noFullRow landed).
    { destruct (clearLines_cleared
                  (lockInto (board g1) (type (currentPiece g1)) (x (currentPiece g1))
                            (y (currentPiece g1)) (rotation (currentPiece g1))))
        as (_ & _ & _ & Hnf). exact Hnf. }
    split; [exact Hnofull|]. split; [exact Hrnd|]. split; [unfold validRotation; simpl; lia|].
    simpl. destruct (placementLegalb landed rnd 0 (spawnColumn rnd) 0) eqn:Hnew;
      [|discriminate].
    apply placementLegalb_spec in Hnew. intros _. split; [exact Hnew|].
    exists 0, (spawnColumn rnd). split; [unfold validRotation; lia | exact Hnew].
Qed.

(** ** Restarting the game *)

Lemma red_flash (l : list Z) :
  ∀ (leds : Leds) (k : Z),
    (k ∈ l → fold_left (fun leds i => setLed leds i Red) l leds k = Red) ∧
    (k ∉ l → fold_left (fun leds i => setLed leds i Red) l leds k = leds k).
Proof.
  induction l as [|i l IH]; intros leds k; simpl.
  - split; [intros H; inversion H | reflexivity].
  - destruct (IH (setLed leds i Red) k) as [IHin IHout]. split.
    + intros Hk. destruct (decide (k ∈ l)) as [Hin | Hout]; [now apply IHin|].
      rewrite IHout by exact Hout.
      inversion Hk; subst; [apply setLed_eq | contradiction].
    + intros Hk. rewrite IHout by (intros H; apply Hk; now right).
      apply setLed_ne. intros ->. apply Hk. now left.
Qed.

Lemma gameOverSequence_run (rnd : Z) (g : Game) :
  validType rnd →
  ∃ red leds g',
    gameOverSequence rnd g = Some ([red; leds], g') ∧
    (∀ k, 0 ≤ k < NUM_LEDS → red k = Red) ∧
    boardEmpty (board g') ∧ gameOver g' = false ∧
    currentPiece g' = mkPiece rnd 0 (spawnColumn rnd) 0 ∧
    pieceLegal g' ∧
    updateDisplay g' = Some (leds, g').
Proof.
  intros Hty.
  destruct (clearBoard_cells g) as (g1 & Hclear & _ & _ & Hempty).
  pose proof (spawn_legal_on_empty (board g1) rnd Hempty Hty) as Hlegal.
  pose proof (proj2 (placementLegalb_spec _ _ _ _ _) Hlegal) as Hlegalb.
  unfold gameOverSequence. cbv zeta.
  rewrite (bind_run_Some _ _ g g1 tt Hclear).
  rewrite bind_run. unfold setGameOver at 1. cbv beta iota.
  rewrite bind_run, spawnPiece_run by exact Hty. cbv beta iota.
  cbn [board gameOver currentPiece]. rewrite Hlegalb.
  rewrite bind_run, updateDisplay_run. cbv beta iota.
  eexists _, _, _. split; [reflexivity|]. split; [|split; [exact Hempty|]].
  - intros k Hk. apply red_flash, elem_of_seqZ. lia.
  - split; [reflexivity|]. split; [reflexivity|]. split; [exact Hlegal|].
    apply updateDisplay_run.
Qed.

Lemma setup_run (rnd : Z) (g : Game) :
  validType rnd →
  ∃ g',
    setup rnd g = Some (tt, g') ∧
    boardEmpty (board g') ∧ gameOver g' = gameOver g ∧
    currentPiece g' = mkPiece rnd 0 (spawnColumn rnd) 0 ∧
    pieceLegal g'.
Proof.
  intros Hty.
  destruct (clearBoard_cells g) as (g1 & Hclear & _ & Hover & Hempty).
  pose proof (spawn_legal_on_empty (board g1) rnd Hempty Hty) as Hlegal.
  pose proof (proj2 (placementLegalb_spec _ _ _ _ _) Hlegal) as Hlegalb.
  unfold setup. rewrite (bind_run_Some _ _ g g1 tt Hclear).
  rewrite spawnPiece_run by exact Hty. rewrite Hlegalb.
  eexists. split; [reflexivity|]. split; [exact Hempty|]. split; [exact Hover|].
  split; [reflexivity | exact Hlegal].
Qed.

Lemma fresh_piece_inPlay (g : Game) (rnd : Z) :
  validType rnd → boardEmpty (board g) →
  currentPiece g = mkPiece rnd 0 (spawnColumn rnd) 0 → pieceLegal g → inPlay g.
Proof.
  intros Hty Hempty Hpiece Hlegal.
  split; [apply boardEmpty_noFullRow, Hempty|].
  rewrite Hpiece. split; [exact Hty|]. split; [unfold validRotation; simpl; lia|].
  intros _. split; [exact Hlegal|].
  exists 0, (spawnColumn rnd). split; [unfold validRotation; lia|].
  unfold legalAtSpawn. unfold pieceLegal in Hlegal. rewrite Hpiece in *. exact Hlegal.
Qed.

Lemma uint32_elapsed (lastUpdateTime elapsed : Z) :
  0 ≤ elapsed < 2 ^ 32 →
  uint32 (uint32 (lastUpdateTime + elapsed) - lastUpdateTime) = elapsed.
Proof.
  intros He. unfold uint32.
  rewrite Zminus_mod_idemp_l.
  replace (lastUpdateTime + elapsed - lastUpdateTime) with elapsed by lia.
  apply Z.mod_small. exact He.
Qed.

Lemma loop_run (fuel : nat) (lastUpdateTime currentMillis roll move rnd : Z) (g : Game) :
  (Z.to_nat BOARD_HEIGHT ≤ fuel)%nat → validType rnd → inPlay g →
  ∃ last' frames g',
    loop fuel lastUpdateTime currentMillis roll move rnd g = Some ((last', frames), g') ∧
    inPlay g' ∧
    (gameOver g = true →
       last' = lastUpdateTime ∧ length frames = 2%nat ∧
       boardEmpty (board g') ∧ gameOver g' = false) ∧
    (gameOver g = false → uint32 (currentMillis - lastUpdateTime) < gameSpeed →
       last' = lastUpdateTime ∧ frames = [] ∧ g' = g) ∧
    (gameOver g = false → gameSpeed ≤ uint32 (currentMillis - lastUpdateTime) →
       last' = currentMillis ∧
       gameUpdate fuel roll move rnd g = Some (tt, g') ∧
       ∃ leds, frames = [leds] ∧ updateDisplay g' = Some (leds, g')).
Proof.
  intros Hfuel Hrnd Hplay. unfold loop.
  rewrite bind_run. unfold getGameOver at 1. cbv beta iota.
  destruct (gameOver g) eqn:Hover.
  - destruct (gameOverSequence_run rnd g Hrnd)
      as (red & leds & g' & Hrun & _ & Hempty & Hover' & Hpiece & Hlegal & _).
    rewrite (bind_run_Some _ _ g g' _ Hrun).
    eexists _, _, g'. split; [reflexivity|].
    split; [exact (fresh_piece_inPlay g' rnd Hrnd Hempty Hpiece Hlegal)|].
    split; [intros _; repeat split; assumption|].
    split; intros; discriminate.
  - destruct (Z.geb_spec (uint32 (currentMillis - lastUpdateTime)) gameSpeed) as [Hdue | Hwait].
    + destruct (gameUpdate_inPlay fuel roll move rnd g Hfuel Hrnd Hplay Hover)
        as (g' & Hupd & Hplay').
      rewrite (bind_run_Some _ _ g g' tt Hupd).
      rewrite bind_run, updateDisplay_run. cbv beta iota.
      eexists _, _, g'. split; [reflexivity|]. split; [exact Hplay'|].
      split; [intros; discriminate|]. split; [intros _ Hlt; lia|].
      intros _ _. split; [reflexivity|]. split; [exact Hupd|].
      eexists. split; [reflexivity | apply updateDisplay_run].
    + eexists _, _, g. split; [reflexivity|]. split; [exact Hplay|].
      split; [intros; discriminate|]. split; [intros _ _; repeat split|].
      intros _ Hge. lia.
Qed.

(** ** Locking and the simulation *)

Lemma lockPiece_cells (g : Game) :
  ∃ g',
    lockPiece g = Some (tt, g') ∧
    currentPiece g' = currentPiece g ∧ gameOver g' = gameOver g ∧
    sameCells (board g')
              (snapshot (board g) (type (currentPiece g)) (x (currentPiece g))
                        (y (currentPiece g)) (rotation (currentPiece g))).
Proof.
  eexists. split; [apply lockPiece_run|]. split; [reflexivity|]. split; [reflexivity|].
  apply lockInto_snapshot. intros r c _. reflexivity.
Qed.

Lemma snapshot_block_colour (b : Grid) (ty testX landingY testRot i : Z) :
  0 ≤ i < 4 →
  snapshot b ty testX landingY testRot
           (landingY + (block ty testRot i).2) (testX + (block ty testRot i).1)
  = pieceColor ty.
Proof.
  intros Hi. unfold snapshot.
  replace (existsb _ (seqZ 0 4)) with true; [reflexivity|].
  symmetry. apply existsb_exists. exists i.
  split; [apply list_elem_of_In, elem_of_seqZ; lia|]. rewrite !Z.eqb_refl. reflexivity.
Qed.

Lemma filter_all_false {A : Type} (f : A → bool) (l : list A) :
  (∀ a, a ∈ l → f a = false) → List.filter f l = [].
Proof.
  induction l as [|a l IH]; intros H; simpl; [reflexivity|].
  rewrite (H a) by now left. apply IH. intros a' Ha'. apply H. now right.
Qed.

Lemma noFullRow_none_below (b : Grid) (r : Z) :
  noFullRow b → 0 ≤ r → fullRowsBelow b r = 0.
Proof.
  intros Hnf Hr. unfold fullRowsBelow, fullRowsBetween.
  rewrite filter_all_false; [reflexivity|].
  intros r' Hr'. apply elem_of_seqZ in Hr'. apply Hnf. lia.
Qed.

Lemma clearLines_keeps_board_without_full_rows (g : Game) :
  noFullRow (board g) →
  ∀ r c, inBoard r c →
    fold_left clearStep (seqZ 0 BOARD_HEIGHT) (board g) r c = board g r c.
Proof.
  intros Hnf r c [Hr Hc].
  destruct (clearLines_cleared (board g)) as (_ & _ & Hkept & _).
  specialize (Hkept r Hr (Hnf r Hr) c Hc).
  change (fullRowsBetween (board g) r BOARD_HEIGHT) with (fullRowsBelow (board g) r) in Hkept.
  rewrite (noFullRow_none_below _ r Hnf (proj1 Hr)), Z.add_0_r in Hkept. exact Hkept.
Qed.

Lemma freshGame_inPlay : inPlay freshGame.
Proof.
  apply (fresh_piece_inPlay freshGame 0).
  - unfold validType, NUM_TETROMINO. lia.
  - intros r c _. reflexivity.
  - reflexivity.
  - exact freshGame_legal_at_spawn.
Qed.

(** * Further results on the sketch *)

(** ** Display *)

(** X1. [updateDisplay] shows every cell on its own LED and changes nothing
    in the game: the LED [matrix[r][c]] holds the colour of the falling piece
    where one of its blocks covers the cell, and the colour of the board
    cell (black when empty) elsewhere.  The matrix table maps the 70 cells
    one-to-one onto the LED indices 0 .. NUM_LEDS - 1, so no write leaves the
    buffer and no two cells share an LED. *)
Theorem updateDisplay_shows_board_and_piece (g : Game) :
  validType (type (currentPiece g)) → validRotation (rotation (currentPiece g)) →
  ∃ leds,
    updateDisplay g = Some (leds, g) ∧
    (∀ r c, inBoard r c →
       0 ≤ matrixAt r c < NUM_LEDS ∧
       leds (matrixAt r c) =
       snapshot (board g) (type (currentPiece g)) (x (currentPiece g))
                (y (currentPiece g)) (rotation (currentPiece g)) r c) ∧
    (∀ r c r' c', inBoard r c → inBoard r' c' → matrixAt r c = matrixAt r' c' →
       r = r' ∧ c = c') ∧
    (∀ k, 0 ≤ k < NUM_LEDS → ∃ r c, inBoard r c ∧ matrixAt r c = k).
Proof.
  intros _ _. eexists. split; [apply updateDisplay_run|]. split; [|split].
  - intros r c Hin. split; [apply matrixAt_range, Hin|].
    unfold overlayPiece, snapshot. rewrite overlayPiece_cells by exact Hin.
    rewrite drawBoard_cells by exact Hin. reflexivity.
  - apply matrixAt_inj.
  - apply matrixAt_onto.
Qed.

Lemma updateDisplay_shows_board_and_piece_witness :
  ∃ leds,
    updateDisplay freshGame = Some (leds, freshGame) ∧
    leds (matrixAt 0 1) = Cyan ∧ leds (matrixAt 0 0) = Black.
Proof.
  destruct (updateDisplay_shows_board_and_piece freshGame) as (leds & Hrun & Hcell & _).
  - unfold validType, NUM_TETROMINO. simpl. lia.
  - unfold validRotation. simpl. lia.
  - exists leds. split; [exact Hrun|]. split.
    + destruct (Hcell 0 1) as [_ ->]; [|reflexivity].
      unfold inBoard, BOARD_HEIGHT, BOARD_WIDTH. lia.
    + destruct (Hcell 0 0) as [_ ->]; [|reflexivity].
      unfold inBoard, BOARD_HEIGHT, BOARD_WIDTH. lia.
Defined.

(** ** Locking *)

(** X2. [lockPiece] of a piece that lies on free cells writes the colour of
    the piece into exactly its four cells: these become occupied, every
    other cell of the board keeps its content, the piece and the game-over
    flag are left alone, and the piece can no longer be placed where it
    stands. *)
Theorem lockPiece_locks_the_piece (g : Game) :
  validType (type (currentPiece g)) → validRotation (rotation (currentPiece g)) →
  pieceLegal g →
  ∃ g',
    lockPiece g = Some (tt, g') ∧
    currentPiece g' = currentPiece g ∧ gameOver g' = gameOver g ∧
    (∀ i, 0 ≤ i < 4 →
       board g' (y (currentPiece g) + (block (type (currentPiece g)) (rotation (currentPiece g)) i).2)
                (x (currentPiece g) + (block (type (currentPiece g)) (rotation (currentPiece g)) i).1)
       = pieceColor (type (currentPiece g)) ∧
       pieceColor (type (currentPiece g)) ≠ Black) ∧
    (∀ r c, inBoard r c →
       (¬ ∃ i, 0 ≤ i < 4 ∧
               r = y (currentPiece g) + (block (type (currentPiece g)) (rotation (currentPiece g)) i).2 ∧
               c = x (currentPiece g) + (block (type (currentPiece g)) (rotation (currentPiece g)) i).1) →
       board g' r c = board g r c) ∧
    canPlace (currentPiece g) (x (currentPiece g)) (y (currentPiece g))
             (rotation (currentPiece g)) g' = Some (false, g').
Proof.
  intros Hty _ Hlegal.
  destruct (lockPiece_cells g) as (g' & Hrun & Hpiece & Hover & Hsame).
  exists g'. split; [exact Hrun|]. split; [exact Hpiece|]. split; [exact Hover|].
  assert (Hblocks : ∀ i, 0 ≤ i < 4 →
            board g' (y (currentPiece g) + (block (type (currentPiece g)) (rotation (currentPiece g)) i).2)
                     (x (currentPiece g) + (block (type (currentPiece g)) (rotation (currentPiece g)) i).1)
            = pieceColor (type (currentPiece g))).
  { intros i Hi. destruct (Hlegal i Hi) as [Hin _].
    rewrite (Hsame _ _ Hin). apply snapshot_block_colour, Hi. }
  split; [|split].
  - intros i Hi. split; [apply Hblocks, Hi | apply pieceColor_occupied, Hty].
  - intros r c Hin Hno. rewrite (Hsame r c Hin).
    apply (snapshot_cells (board g) _ _ _ _ r c Hty), Hno.
  - rewrite canPlace_run. f_equal. f_equal.
    destruct (placementLegalb _ _ _ _ _) eqn:Hok; [|reflexivity].
    exfalso. apply placementLegalb_spec in Hok.
    destruct (Hok 0 ltac:(lia)) as [_ Hempty].
    rewrite (Hblocks 0 ltac:(lia)) in Hempty.
    exact (pieceColor_occupied _ Hty Hempty).
Qed.

Lemma lockPiece_locks_the_piece_witness :
  ∃ g',
    lockPiece freshGame = Some (tt, g') ∧
    currentPiece g' = currentPiece freshGame ∧
    canPlace (currentPiece freshGame) 1 0 0 g' = Some (false, g').
Proof.
  destruct (lockPiece_locks_the_piece freshGame) as (g' & Hrun & Hpiece & _ & _ & _ & Hplace).
  - unfold validType, NUM_TETROMINO. simpl. lia.
  - unfold validRotation. simpl. lia.
  - exact freshGame_legal_at_spawn.
  - exists g'. split; [exact Hrun|]. split; [exact Hpiece | exact Hplace].
Defined.

(** X3. The simulation predicts the lock.  The score
    [simulateCandidateScore] computes for a candidate position is the score
    formula evaluated on the board that [lockPiece] produces when the piece
    stands at that position: same holes, same full lines, same maximum
    column height. *)
Theorem simulation_matches_lock (g : Game) (testX landingY testRot : Z) :
  validType (type (currentPiece g)) → validRotation testRot →
  ∃ g',
    lockPiece (mkGame (board g) (mkPiece (type (currentPiece g)) testRot testX landingY)
                      (gameOver g)) = Some (tt, g') ∧
    simulateCandidateScore (currentPiece g) testX landingY testRot g =
    Some (landingY - 3 * holesSpec (board g') + 10 * clearedLinesSpec (board g')
          - 1 * maxColumnHeight (board g'), g).
Proof.
  intros _ _.
  destruct (lockPiece_cells
              (mkGame (board g) (mkPiece (type (currentPiece g)) testRot testX landingY)
                      (gameOver g))) as (g' & Hrun & _ & _ & Hsame).
  exists g'. split; [exact Hrun|]. simpl in Hsame.
  rewrite simulateCandidateScore_run. cbv zeta.
  rewrite <- (countHoles_ext _ _ Hsame), <- (countFullLines_ext _ _ Hsame),
    <- (maxColumnHeight_ext _ _ Hsame).
  rewrite countHoles_spec, countFullLines_spec. reflexivity.
Qed.

Lemma simulation_matches_lock_witness :
  ∃ g',
    lockPiece (mkGame emptyBoard (mkPiece 0 0 3 9) false) = Some (tt, g') ∧
    simulateCandidateScore (currentPiece freshGame) 3 9 0 freshGame =
    Some (9 - 3 * holesSpec (board g') + 10 * clearedLinesSpec (board g')
          - 1 * maxColumnHeight (board g'), freshGame).
Proof.
  apply (simulation_matches_lock freshGame 3 9 0).
  - unfold validType, NUM_TETROMINO. simpl. lia.
  - unfold validRotation. lia.
Defined.

(** ** The strategic move *)

(** X4. In both branches [performStrategicMove] keeps a piece that lies on
    free cells on free cells.  It never touches the board, the game-over
    flag, the type or the row of the piece; the rotation stays within 0..3
    and the column changes by at most one. *)
Theorem strategic_move_keeps_piece_legal (fuel : nat) (g : Game) (roll move : Z) :
  (Z.to_nat BOARD_HEIGHT ≤ fuel)%nat →
  validType (type (currentPiece g)) →
  validRotation (rotation (currentPiece g)) →
  pieceLegal g →
  ∃ g',
    performStrategicMove fuel roll move g = Some (tt, g') ∧
    (∀ r c, board g' r c = board g r c) ∧ gameOver g' = gameOver g ∧
    type (currentPiece g') = type (currentPiece g) ∧
    y (currentPiece g') = y (currentPiece g) ∧
    validRotation (rotation (currentPiece g')) ∧
    pieceLegal g' ∧
    x (currentPiece g) - 1 ≤ x (currentPiece g') ≤ x (currentPiece g) + 1.
Proof.
  intros Hfuel _ Hrot Hlegal.
  destruct (performStrategicMove_keeps_legal fuel g roll move Hfuel Hrot Hlegal)
    as (g' & Hrun & Hboard & Hrest).
  exists g'. split; [exact Hrun|]. split; [intros r c; now rewrite Hboard | exact Hrest].
Qed.

Lemma strategic_move_keeps_piece_legal_witness :
  ∃ g', performStrategicMove 10 3 1 freshGame = Some (tt, g') ∧ pieceLegal g'.
Proof.
  destruct (strategic_move_keeps_piece_legal 10 freshGame 3 1)
    as (g' & Hrun & _ & _ & _ & _ & _ & Hlegal & _).
  - change (10 ≤ 10)%nat. lia.
  - unfold validType, NUM_TETROMINO. simpl. lia.
  - unfold validRotation. simpl. lia.
  - exact freshGame_legal_at_spawn.
  - exists g'. split; [exact Hrun | exact Hlegal].
Defined.

(** X5. In the random-error branch ([roll < 10]) the search is not run and
    the piece is shifted by at most one column: left when [move] is 0 and the
    left neighbour position is legal, right when [move] is 1 and the right
    neighbour position is legal, and not at all otherwise.  Rotation, row,
    board and flag stay as they are. *)
Theorem random_move_shifts_one_column (fuel : nat) (g : Game) (roll move : Z) :
  roll < 10 →
  validType (type (currentPiece g)) → validRotation (rotation (currentPiece g)) →
  ∃ g',
    performStrategicMove fuel roll move g = Some (tt, g') ∧
    (∀ r c, board g' r c = board g r c) ∧ gameOver g' = gameOver g ∧
    type (currentPiece g') = type (currentPiece g) ∧
    rotation (currentPiece g') = rotation (currentPiece g) ∧
    y (currentPiece g') = y (currentPiece g) ∧
    let p := currentPiece g in
    let legal := fun col => placementLegal (board g) (type p) (rotation p) col (y p) in
    (move = 0 → legal (x p - 1) → x (currentPiece g') = x p - 1) ∧
    (move = 0 → ¬ legal (x p - 1) → x (currentPiece g') = x p) ∧
    (move = 1 → legal (x p + 1) → x (currentPiece g') = x p + 1) ∧
    (move = 1 → ¬ legal (x p + 1) → x (currentPiece g') = x p) ∧
    (move ≠ 0 → move ≠ 1 → x (currentPiece g') = x p).
Proof.
  intros Hroll _ _. unfold performStrategicMove. replace (roll <? 10) with true by lia.
  rewrite bind_run, getPiece_run. cbv beta iota.
  destruct (Z.eqb_spec move 0) as [H0 | H0].
  - step_canPlace HokL.
    + eexists. split; [apply movePiece_run|]. legal_to_prop. simpl.
      repeat split; intros; try contradiction; try lia; auto.
    + replace (move =? 1) with false by lia. cbv beta iota.
      rewrite (bind_run_Some (mret false) _ g g false eq_refl). cbv beta iota.
      eexists. split; [reflexivity|]. legal_to_prop. simpl.
      repeat split; intros; try contradiction; try lia; auto.
  - rewrite (bind_run_Some (mret false) _ g g false eq_refl). cbv beta iota.
    destruct (Z.eqb_spec move 1) as [H1 | H1].
    + step_canPlace HokR.
      * eexists. split; [apply movePiece_run|]. legal_to_prop. simpl.
        repeat split; intros; try contradiction; try lia; auto.
      * eexists. split; [reflexivity|]. legal_to_prop. simpl.
        repeat split; intros; try contradiction; try lia; auto.
    + rewrite (bind_run_Some (mret false) _ g g false eq_refl). cbv beta iota.
      eexists. split; [reflexivity|]. simpl.
      repeat split; intros; try contradiction; try lia; auto.
Qed.

Lemma random_move_shifts_one_column_witness :
  ∃ g',
    performStrategicMove 0 3 0 freshGame = Some (tt, g') ∧
    x (currentPiece g') = 0.
Proof.
  destruct (random_move_shifts_one_column 0 freshGame 3 0)
    as (g' & Hrun & _ & _ & _ & _ & _ & Hleft & _).
  - lia.
  - unfold validType, NUM_TETROMINO. simpl. lia.
  - unfold validRotation. simpl. lia.
  - exists g'. split; [exact Hrun|].
    apply Hleft; [reflexivity|]. apply placementLegalb_spec. reflexivity.
Defined.

(** ** Running the game *)

(** X6. [setup] starts a game that is in play: the board is empty, the new
    piece has the drawn type, rotation 0, its spawn column and row 0, and it
    lies on free cells; the game-over flag keeps its initial value. *)
Theorem setup_starts_in_play (rnd : Z) (g : Game) :
  validType rnd →
  ∃ g',
    setup rnd g = Some (tt, g') ∧
    boardEmpty (board g') ∧ gameOver g' = gameOver g ∧
    currentPiece g' = mkPiece rnd 0 (spawnColumn rnd) 0 ∧
    pieceLegal g' ∧ inPlay g'.
Proof.
  intros Hty.
  destruct (setup_run rnd g Hty) as (g' & Hrun & Hempty & Hover & Hpiece & Hlegal).
  exists g'. repeat (split; [assumption|]).
  exact (fresh_piece_inPlay g' rnd Hty Hempty Hpiece Hlegal).
Qed.

Lemma setup_starts_in_play_witness :
  ∃ g', setup 2 blockedGame = Some (tt, g') ∧ boardEmpty (board g') ∧ inPlay g'.
Proof.
  destruct (setup_starts_in_play 2 blockedGame) as (g' & Hrun & Hempty & _ & _ & _ & Hplay).
  - unfold validType, NUM_TETROMINO. lia.
  - exists g'. split; [exact Hrun|]. split; [exact Hempty | exact Hplay].
Defined.

(** X7. [loop] keeps the game in play.  From a state that is in play
    ([inPlay]: no row is full, the piece has a catalogue type and rotation
    and, unless the game is over, it lies on free cells and some placement
    is legal at the spawn row), every call of [loop] returns such a state
    again, whatever the clock and the random draws are: between two calls
    the board never holds a full row, and a piece of a running game never
    overlaps a locked cell or leaves the board. *)
Theorem loop_keeps_in_play
    (fuel : nat) (lastUpdateTime currentMillis roll move rnd : Z) (g : Game) :
  (Z.to_nat BOARD_HEIGHT ≤ fuel)%nat → validType rnd → inPlay g →
  ∃ last' frames g',
    loop fuel lastUpdateTime currentMillis roll move rnd g = Some ((last', frames), g') ∧
    inPlay g'.
Proof.
  intros Hfuel Hrnd Hplay.
  destruct (loop_run fuel lastUpdateTime currentMillis roll move rnd g Hfuel Hrnd Hplay)
    as (last' & frames & g' & Hrun & Hplay' & _).
  exists last', frames, g'. split; assumption.
Qed.

Lemma loop_keeps_in_play_witness :
  ∃ last' frames g',
    loop 10 0 600 50 0 1 freshGame = Some ((last', frames), g') ∧ inPlay g'.
Proof.
  apply (loop_keeps_in_play 10 0 600 50 0 1 freshGame).
  - change (10 ≤ 10)%nat. lia.
  - unfold validType, NUM_TETROMINO. lia.
  - exact freshGame_inPlay.
Defined.

(** X8. The update interval of [loop] is measured by unsigned subtraction and
    therefore survives the overflow of [millis()].  While the game is not
    over and fewer than [gameSpeed] = 500 ms have elapsed since
    [lastUpdateTime], [loop] changes nothing and shows nothing; once 500 ms
    have elapsed it runs one game update, sets [lastUpdateTime] to the
    current time and shows exactly one buffer, the display of the new
    state. *)
Theorem loop_waits_for_interval
    (fuel : nat) (lastUpdateTime elapsed roll move rnd : Z) (g : Game) :
  gameOver g = false →
  0 ≤ elapsed < 2 ^ 32 →
  (elapsed < gameSpeed →
     loop fuel lastUpdateTime (uint32 (lastUpdateTime + elapsed)) roll move rnd g =
     Some ((lastUpdateTime, []), g)) ∧
  (gameSpeed ≤ elapsed → (Z.to_nat BOARD_HEIGHT ≤ fuel)%nat → validType rnd → inPlay g →
     ∃ leds g',
       loop fuel lastUpdateTime (uint32 (lastUpdateTime + elapsed)) roll move rnd g =
       Some ((uint32 (lastUpdateTime + elapsed), [leds]), g') ∧
       gameUpdate fuel roll move rnd g = Some (tt, g') ∧
       updateDisplay g' = Some (leds, g')).
Proof.
  intros Hover Helapsed.
  pose proof (uint32_elapsed lastUpdateTime elapsed Helapsed) as Hdiff.
  split.
  - intros Hwait. unfold loop.
    rewrite bind_run. unfold getGameOver at 1. cbv beta iota. rewrite Hover, Hdiff.
    replace (elapsed >=? gameSpeed) with false by lia. reflexivity.
  - intros Hdue Hfuel Hrnd Hplay.
    destruct (loop_run fuel lastUpdateTime (uint32 (lastUpdateTime + elapsed))
                       roll move rnd g Hfuel Hrnd Hplay)
      as (last' & frames & g' & Hrun & _ & _ & _ & Hfire).
    rewrite Hdiff in Hfire.
    destruct (Hfire Hover Hdue) as (-> & Hupd & leds & -> & Hshow).
    exists leds, g'. split; [exact Hrun|]. split; assumption.
Qed.

Lemma loop_waits_for_interval_witness :
  loop 10 4294967000 (uint32 (4294967000 + 396)) 50 0 1 freshGame
  = Some ((4294967000, []), freshGame).
Proof.
  destruct (loop_waits_for_interval 10 4294967000 396 50 0 1 freshGame) as [Hwait _].
  - reflexivity.
  - lia.
  - apply Hwait. unfold gameSpeed. lia.
Defined.

(** X9. When the game is over, [loop] restarts it: [gameOverSequence] shows
    an all-red buffer, then the display of the restarted game; the board is
    empty, the flag is cleared, the new piece stands on free cells at its
    spawn position, and [lastUpdateTime] is not touched. *)
Theorem game_over_restarts
    (fuel : nat) (lastUpdateTime currentMillis roll move rnd : Z) (g : Game) :
  gameOver g = true → validType rnd →
  ∃ red leds g',
    loop fuel lastUpdateTime currentMillis roll move rnd g =
    Some ((lastUpdateTime, [red; leds]), g') ∧
    gameOverSequence rnd g = Some ([red; leds], g') ∧
    (∀ k, 0 ≤ k < NUM_LEDS → red k = Red) ∧
    updateDisplay g' = Some (leds, g') ∧
    boardEmpty (board g') ∧ gameOver g' = false ∧
    currentPiece g' = mkPiece rnd 0 (spawnColumn rnd) 0 ∧
    pieceLegal g' ∧ inPlay g'.
Proof.
  intros Hover Hrnd.
  destruct (gameOverSequence_run rnd g Hrnd)
    as (red & leds & g' & Hrun & Hred & Hempty & Hover' & Hpiece & Hlegal & Hshow).
  exists red, leds, g'. split.
  - unfold loop. rewrite bind_run. unfold getGameOver at 1. cbv beta iota. rewrite Hover.
    rewrite (bind_run_Some _ _ g g' _ Hrun). reflexivity.
  - repeat (split; [assumption|]).
    exact (fresh_piece_inPlay g' rnd Hrnd Hempty Hpiece Hlegal).
Qed.

Lemma game_over_restarts_witness :
  ∃ red leds g',
    loop 0 7 9 50 0 2 (mkGame blockedBoard (mkPiece 0 0 1 0) true) =
    Some ((7, [red; leds]), g') ∧
    boardEmpty (board g') ∧ gameOver g' = false.
Proof.
  destruct (game_over_restarts 0 7 9 50 0 2 (mkGame blockedBoard (mkPiece 0 0 1 0) true))
    as (red & leds & g' & Hrun & _ & _ & _ & Hempty & Hover & _).
  - reflexivity.
  - unfold validType, NUM_TETROMINO. lia.
  - exists red, leds, g'. split; [exact Hrun|]. split; assumption.
Defined.

(** X10. In a game that is in play and not over the search never falls back
    on its default: [findBestPlacement] returns a column inside the board
    and a rotation 0..3 at which the piece is legal at the spawn row. *)
Theorem search_in_play_returns_legal_placement (fuel : nat) (g : Game) :
  (Z.to_nat BOARD_HEIGHT ≤ fuel)%nat → inPlay g → gameOver g = false →
  ∃ bestX bestRot,
    findBestPlacement fuel g = Some ((bestX, bestRot), g) ∧
    validRotation bestRot ∧ 0 ≤ bestX < BOARD_WIDTH ∧
    legalAtSpawn g bestRot bestX.
Proof.
  intros Hfuel (_ & Hty & _ & Hplay) Hover.
  destruct (Hplay Hover) as [_ Hex].
  destruct (search_some_legal fuel g Hfuel Hty Hex)
    as (bestX & bestRot & Hrun & Hrot & Hlegal & _).
  exists bestX, bestRot. split; [exact Hrun|]. split; [exact Hrot|]. split; [|exact Hlegal].
  pose proof (legal_in_candidates _ _ _ _ Hty Hrot Hlegal) as Hin.
  apply elem_of_candidates in Hin. destruct Hin as [_ Hcol].
  destruct (maxOffset_spec (type (currentPiece g)) bestRot) as [(i & _ & Hi) _].
  pose proof (block_nonneg (type (currentPiece g)) bestRot i). lia.
Qed.

Lemma search_in_play_returns_legal_placement_witness :
  ∃ bestX bestRot,
    findBestPlacement 10 freshGame = Some ((bestX, bestRot), freshGame) ∧
    validRotation bestRot ∧ 0 ≤ bestX < BOARD_WIDTH ∧
    legalAtSpawn freshGame bestRot bestX.
Proof.
  apply (search_in_play_returns_legal_placement 10 freshGame).
  - change (10 ≤ 10)%nat. lia.
  - exact freshGame_inPlay.
  - reflexivity.
Defined.

(** ** Line clearing, continued *)

(** X11. [clearLines] is idempotent, and on a board without a full row it
    changes no cell: running it a second time leaves every cell as the first
    run left it. *)
Theorem clearLines_idempotent (g : Game) :
  ∃ g1 g2,
    clearLines g = Some (tt, g1) ∧
    clearLines g1 = Some (tt, g2) ∧
    (∀ r c, inBoard r c → board g2 r c = board g1 r c) ∧
    (noFullRow (board g) → ∀ r c, inBoard r c → board g1 r c = board g r c).
Proof.
  eexists _, _. split; [apply clearLines_run|]. split; [apply clearLines_run|].
  split.
  - intros r c Hin.
    apply (clearLines_keeps_board_without_full_rows
             (withBoard (fold_left clearStep (seqZ 0 BOARD_HEIGHT) (board g)) g));
      [|exact Hin].
    destruct (clearLines_cleared (board g)) as (_ & _ & _ & Hnf). exact Hnf.
  - intros Hnf r c Hin. apply clearLines_keeps_board_without_full_rows; assumption.
Qed.

Lemma clearLines_idempotent_witness :
  ∃ g1,
    clearLines freshGame = Some (tt, g1) ∧
    ∀ r c, inBoard r c → board g1 r c = board freshGame r c.
Proof.
  destruct (clearLines_idempotent freshGame) as (g1 & g2 & Hrun & _ & _ & Hkeep).
  exists g1. split; [exact Hrun|]. apply Hkeep.
  intros r Hr. reflexivity.
Defined.

(** ** The range of the score *)

(** X12. For a landing row on the board, the counters of
    [simulateCandidateScore] (which are the hole count, the full-line count
    and the greatest stack height of the board with the candidate locked in)
    are at most 70, 10 and 10, the score lies between -220 and 109, and
    every intermediate value of the score expression fits a 16-bit [int].
    In particular every score is greater than -10000, the initial
    [bestScore] of the search. *)
Theorem score_in_range
    (g : Game) (candidate : Piece) (testX landingY testRot : Z) :
  validType (type candidate) → validRotation testRot →
  0 ≤ landingY < BOARD_HEIGHT →
  let temp := snapshot (board g) (type candidate) testX landingY testRot in
  let holes := countHoles temp in
  let linesCleared := countFullLines temp in
  let maxHeight := maxColumnHeight temp in
  simulateCandidateScore candidate testX landingY testRot g =
  Some (landingY - HOLE_PENALTY * holes + LINE_CLEAR_BONUS * linesCleared
        - MAX_HEIGHT_PENALTY * maxHeight, g) ∧
  holes = holesSpec temp ∧ linesCleared = clearedLinesSpec temp ∧
  maxAcrossColumns (stackHeight temp) maxHeight ∧
  0 ≤ holes ≤ 70 ∧ 0 ≤ linesCleared ≤ 10 ∧ 0 ≤ maxHeight ≤ 10 ∧
  -220 ≤ landingY - HOLE_PENALTY * holes + LINE_CLEAR_BONUS * linesCleared
         - MAX_HEIGHT_PENALTY * maxHeight ≤ 109 ∧
  Forall (fun v => -32768 ≤ v ≤ 32767)
         [ HOLE_PENALTY * holes; landingY - HOLE_PENALTY * holes;
           LINE_CLEAR_BONUS * linesCleared;
           landingY - HOLE_PENALTY * holes + LINE_CLEAR_BONUS * linesCleared;
           MAX_HEIGHT_PENALTY * maxHeight;
           landingY - HOLE_PENALTY * holes + LINE_CLEAR_BONUS * linesCleared
           - MAX_HEIGHT_PENALTY * maxHeight ].
Proof.
  intros _ _ Hy temp holes linesCleared maxHeight.
  split; [exact (simulateCandidateScore_run candidate testX landingY testRot g)|].
  split; [apply countHoles_spec|]. split; [apply countFullLines_spec|].
  split; [apply maxColumnHeight_spec|].
  pose proof (score_components_bounded temp) as (Hh & Hl & Hm).
  fold holes in Hh. fold linesCleared in Hl. fold maxHeight in Hm.
  clearbody holes linesCleared maxHeight.
  split; [exact Hh|]. split; [exact Hl|]. split; [exact Hm|].
  unfold HOLE_PENALTY, LINE_CLEAR_BONUS, MAX_HEIGHT_PENALTY, BOARD_HEIGHT in *.
  split; [lia|]. repeat constructor; lia.
Qed.

Lemma score_in_range_witness :
  simulateCandidateScore (mkPiece 1 0 2 0) 0 8 0 freshGame =
  Some (8 - HOLE_PENALTY * countHoles floorSnapshot
        + LINE_CLEAR_BONUS * countFullLines floorSnapshot
        - MAX_HEIGHT_PENALTY * maxColumnHeight floorSnapshot, freshGame) ∧
  countHoles floorSnapshot = holesSpec floorSnapshot ∧
  -220 ≤ 8 - HOLE_PENALTY * countHoles floorSnapshot
         + LINE_CLEAR_BONUS * countFullLines floorSnapshot
         - MAX_HEIGHT_PENALTY * maxColumnHeight floorSnapshot ≤ 109.
Proof.
  destruct (score_in_range freshGame (mkPiece 1 0 2 0) 0 8 0)
    as (Hrun & Hholes & _ & _ & _ & _ & _ & Hrange & _).
  - unfold validType, NUM_TETROMINO. simpl. lia.
  - unfold validRotation. lia.
  - unfold BOARD_HEIGHT. lia.
  - split; [exact Hrun|]. split; [exact Hholes | exact Hrange].
Defined.

(** ** Falling, landing and spawning *)

(** X13. One game update.  After the strategic move the piece either moves
    exactly one row down, when the position one row lower is legal, and then
    nothing else changes; or it has landed: it is locked where it stands,
    full lines are cleared so that no full row is left, and a new piece of
    the drawn type is spawned at its spawn column in row 0.  The game-over
    flag is then set exactly when it was set before or the new piece does
    not fit. *)
Theorem gameUpdate_falls_or_lands (fuel : nat) (roll move rnd : Z) (g : Game) :
  (Z.to_nat BOARD_HEIGHT ≤ fuel)%nat → validType rnd →
  validType (type (currentPiece g)) →
  validRotation (rotation (currentPiece g)) → pieceLegal g →
  ∃ g1 g',
    performStrategicMove fuel roll move g = Some (tt, g1) ∧
    gameUpdate fuel roll move rnd g = Some (tt, g') ∧
    let p1 := currentPiece g1 in
    (placementLegal (board g) (type p1) (rotation p1) (x p1) (y p1 + 1) →
       (∀ r c, board g' r c = board g r c) ∧ gameOver g' = gameOver g ∧
       currentPiece g' = mkPiece (type p1) (rotation p1) (x p1) (y p1 + 1)) ∧
    (¬ placementLegal (board g) (type p1) (rotation p1) (x p1) (y p1 + 1) →
       ∃ glocked gcleared,
         lockPiece g1 = Some (tt, glocked) ∧
         clearLines glocked = Some (tt, gcleared) ∧
         (∀ r c, board g' r c = board gcleared r c) ∧
         noFullRow (board g') ∧
         currentPiece g' = mkPiece rnd 0 (spawnColumn rnd) 0 ∧
         (gameOver g' = true ↔
            gameOver g = true ∨ ¬ placementLegal (board g') rnd 0 (spawnColumn rnd) 0)).
Proof.
  intros Hfuel Hrnd _ Hrot Hlegal.
  destruct (performStrategicMove_keeps_legal fuel g roll move Hfuel Hrot Hlegal)
    as (g1 & Hmove & Hboard & Hover1 & _).
  pose proof (fall_or_land_run rnd g1 Hrnd) as Hstep. cbv zeta in Hstep.
  destruct (clearLines_cleared
              (lockInto (board g1) (type (currentPiece g1)) (x (currentPiece g1))
                        (y (currentPiece g1)) (rotation (currentPiece g1))))
    as (_ & _ & _ & Hnf).
  set (landed := fold_left clearStep (seqZ 0 BOARD_HEIGHT)
                   (lockInto (board g1) (type (currentPiece g1)) (x (currentPiece g1))
                             (y (currentPiece g1)) (rotation (currentPiece g1)))) in *.
  assert (Hupd : ∀ g', (cur0 ← getPiece;
                        ok ← canPlace cur0 (x cur0) (y cur0 + 1) (rotation cur0);
                        if (ok : bool)
                        then setPiece (mkPiece (type cur0) (rotation cur0) (x cur0) (y cur0 + 1))
                        else lockPiece;; clearLines;; spawnPiece rnd) g1 = Some (tt, g') →
                       gameUpdate fuel roll move rnd g = Some (tt, g')).
  { intros g' Hg'. unfold gameUpdate. rewrite (bind_run_Some _ _ g g1 tt Hmove). exact Hg'. }
  rewrite <- Hboard.
  destruct (placementLegalb (board g1) (type (currentPiece g1)) (rotation (currentPiece g1))
              (x (currentPiece g1)) (y (currentPiece g1) + 1)) eqn:Hfall.
  - exists g1. eexists. split; [exact Hmove|]. split; [exact (Hupd _ Hstep)|].
    apply placementLegalb_spec in Hfall. cbv zeta.
    split; [|intros Hno; contradiction].
    intros _. cbn [board gameOver currentPiece].
    split; [reflexivity|]. split; [exact Hover1 | reflexivity].
  - assert (Hno : ¬ placementLegal (board g1) (type (currentPiece g1))
                    (rotation (currentPiece g1)) (x (currentPiece g1))
                    (y (currentPiece g1) + 1))
      by (rewrite <- placementLegalb_spec; congruence).
    exists g1. eexists. split; [exact Hmove|]. split; [exact (Hupd _ Hstep)|].
    cbv zeta. split; [intros Hyes; contradiction|]. intros _.
    exists (withBoard (lockInto (board g1) (type (currentPiece g1)) (x (currentPiece g1))
                                (y (currentPiece g1)) (rotation (currentPiece g1))) g1).
    exists (withBoard landed g1).
    split; [exact (lockPiece_run g1)|]. split; [exact (clearLines_run _)|].
    cbn [board gameOver currentPiece withBoard].
    split; [reflexivity|]. split; [exact Hnf|]. split; [reflexivity|].
    rewrite <- placementLegalb_spec.
    destruct (placementLegalb landed rnd 0 (spawnColumn rnd) 0); rewrite ?Hover1.
    + split; [intros H; now left | intros [H | H]; [exact H | congruence]].
    + split; [intros _; right; congruence | reflexivity].
Qed.

Lemma gameUpdate_falls_or_lands_witness :
  ∃ g1 g',
    performStrategicMove 10 50 0 freshGame = Some (tt, g1) ∧
    gameUpdate 10 50 0 1 freshGame = Some (tt, g').
Proof.
  destruct (gameUpdate_falls_or_lands 10 50 0 1 freshGame) as (g1 & g' & Hmove & Hupd & _).
  - change (10 ≤ 10)%nat. lia.
  - unfold validType, NUM_TETROMINO. lia.
  - unfold validType, NUM_TETROMINO. simpl. lia.
  - unfold validRotation. simpl. lia.
  - exact freshGame_legal_at_spawn.
  - exists g1, g'. split; assumption.
Defined.

(** X14. [spawnPiece] puts a piece of the drawn type in rotation 0 at row 0
    and at the column that centres its bounding box (the hard-coded widths 4,
    2 and 3 are the widths of the table rows), leaves the board alone, raises
    the game-over flag exactly when that position is not legal, and never
    clears the flag. *)
Theorem spawnPiece_spawns_centred (rnd : Z) (g : Game) :
  validType rnd →
  ∃ g',
    spawnPiece rnd g = Some (tt, g') ∧
    (∀ r c, board g' r c = board g r c) ∧
    currentPiece g' = mkPiece rnd 0 (spawnColumn rnd) 0 ∧
    spawnColumn rnd = (BOARD_WIDTH - (maxOffset rnd 0 + 1)) `quot` 2 ∧
    (gameOver g' = true ↔
       gameOver g = true ∨ ¬ placementLegal (board g) rnd 0 (spawnColumn rnd) 0).
Proof.
  intros Hty. eexists. split; [apply spawnPiece_run, Hty|]. simpl.
  split; [reflexivity|]. split; [reflexivity|]. split.
  - destruct (valid_type_cases rnd Hty) as [-> | [-> | ->]]; reflexivity.
  - rewrite <- placementLegalb_spec.
    destruct (placementLegalb (board g) rnd 0 (spawnColumn rnd) 0).
    + split; [intros H; now left | intros [H | H]; [exact H | congruence]].
    + split; [intros _; right; congruence | reflexivity].
Qed.

Lemma spawnPiece_spawns_centred_witness :
  ∃ g',
    spawnPiece 2 freshGame = Some (tt, g') ∧
    currentPiece g' = mkPiece 2 0 (spawnColumn 2) 0.
Proof.
  destruct (spawnPiece_spawns_centred 2 freshGame) as (g' & Hrun & _ & Hpiece & _).
  - unfold validType, NUM_TETROMINO. lia.
  - exists g'. split; assumption.
Defined.

(** X15. [clearBoard] empties all 70 cells and leaves the piece and the
    game-over flag alone; on the cleared board [canPlace] accepts exactly
    the placements whose four blocks are inside the board. *)
Theorem clearBoard_empties_board (g : Game) :
  ∃ g',
    clearBoard g = Some (tt, g') ∧
    currentPiece g' = currentPiece g ∧ gameOver g' = gameOver g ∧
    boardEmpty (board g') ∧
    ∀ (p : Piece) (newX newY newRotation : Z),
    validType (type p) → validRotation newRotation →
    ∃ ok,
      canPlace p newX newY newRotation g' = Some (ok, g') ∧
      (ok = true ↔
         ∀ i, 0 ≤ i < 4 →
           inBoard (newY + (block (type p) newRotation i).2)
                   (newX + (block (type p) newRotation i).1)).
Proof.
  destruct (clearBoard_cells g) as (g' & Hrun & Hpiece & Hover & Hempty).
  exists g'. repeat (split; [assumption|]).
  intros p newX newY newRotation _ _. eexists. split; [apply canPlace_run|].
  rewrite placementLegalb_spec. split.
  - intros Hlegal i Hi. exact (proj1 (Hlegal i Hi)).
  - intros Hin i Hi. split; [apply Hin, Hi | apply Hempty, Hin, Hi].
Qed.

Lemma clearBoard_empties_board_witness :
  ∃ g',
    clearBoard overhangGame = Some (tt, g') ∧
    canPlace (mkPiece 2 0 0 0) 4 8 0 g' = Some (true, g').
Proof.
  destruct (clearBoard_empties_board overhangGame) as (g' & Hrun & _ & _ & _ & Hplace).
  exists g'. split; [exact Hrun|].
  destruct (Hplace (mkPiece 2 0 0 0) 4 8 0) as (ok & Hok & Hiff).
  - unfold validType, NUM_TETROMINO. simpl. lia.
  - unfold validRotation. lia.
  - replace ok with true in Hok; [exact Hok|]. symmetry. apply Hiff.
    intros i Hi.
    assert (i = 0 ∨ i = 1 ∨ i = 2 ∨ i = 3) as [-> | [-> | [-> | ->]]] by lia;
      unfold inBoard, BOARD_HEIGHT, BOARD_WIDTH; simpl; lia.
Defined.

(** ** The target of a falling piece *)

Lemma placementLegal_ext (b b' : Grid) (ty rot col row : Z) :
  sameCells b b' → placementLegal b ty rot col row → placementLegal b' ty rot col row.
Proof.
  intros Hsame Hlegal i Hi. destruct (Hlegal i Hi) as [Hin Hempty].
  split; [exact Hin|]. rewrite <- (Hsame _ _ Hin). exact Hempty.
Qed.

Lemma sameCells_sym (b b' : Grid) : sameCells b b' → sameCells b' b.
Proof. intros H r c Hin. symmetry. apply H, Hin. Qed.

Lemma snapshot_ext (b b' : Grid) (ty testX landingY testRot : Z) :
  sameCells b b' →
  sameCells (snapshot b ty testX landingY testRot) (snapshot b' ty testX landingY testRot).
Proof.
  intros Hsame r c Hin. unfold snapshot.
  destruct (existsb _ _); [reflexivity | apply Hsame, Hin].
Qed.

Lemma scoreValue_ext (fuel : nat) (g g' : Game) (c : Z * Z) :
  (Z.to_nat BOARD_HEIGHT ≤ fuel)%nat →
  sameCells (board g) (board g') →
  type (currentPiece g') = type (currentPiece g) →
  scoreValue fuel g' c = scoreValue fuel g c.
Proof.
  intros Hfuel Hsame Htype. destruct c as [rot col].
  assert (Hfuel' : (Z.to_nat (BOARD_HEIGHT - 0) ≤ fuel)%nat ∧ (1 ≤ fuel)%nat)
    by (change (Z.to_nat BOARD_HEIGHT) with 10%nat in Hfuel;
        change (Z.to_nat (BOARD_HEIGHT - 0)) with 10%nat; lia).
  destruct (dropLoop_run fuel g col rot 0 (proj1 Hfuel') (proj2 Hfuel'))
    as (ly & Hdrop & Hle & Hall & Hstop).
  destruct (dropLoop_run fuel g' col rot 0 (proj1 Hfuel') (proj2 Hfuel'))
    as (ly' & Hdrop' & Hle' & Hall' & Hstop').
  rewrite Htype in Hall', Hstop'.
  assert (Heq : ly' = ly).
  { destruct (Z.lt_trichotomy ly ly') as [Hlt | [Heq | Hgt]]; [|now symmetry|].
    - exfalso. apply Hstop. apply (placementLegal_ext _ _ _ _ _ _ (sameCells_sym _ _ Hsame)).
      apply Hall'. lia.
    - exfalso. apply Hstop'. apply (placementLegal_ext _ _ _ _ _ _ Hsame).
      apply Hall. lia. }
  subst ly'.
  unfold scoreValue, eval, candidateScore. simpl fst. simpl snd.
  rewrite (bind_run_Some _ _ g g ly Hdrop), (bind_run_Some _ _ g' g' ly Hdrop').
  rewrite !bind_run, !getPiece_run. cbv beta iota.
  rewrite !simulateCandidateScore_run. cbv zeta. rewrite Htype.
  pose proof (snapshot_ext _ _ (type (currentPiece g)) col ly rot Hsame) as Hs.
  rewrite (countHoles_ext _ _ Hs), (countFullLines_ext _ _ Hs), (maxColumnHeight_ext _ _ Hs).
  reflexivity.
Qed.

(** X16. The target depends on the board and the piece type only.  When
    some placement is legal at the spawn row, two states with the same board
    cells and the same piece type get the same (column, rotation) from
    [findBestPlacement], wherever the piece stands and however it is
    rotated: the target does not change while a piece falls. *)
Theorem search_target_is_stable (fuel : nat) (g g' : Game) :
  (Z.to_nat BOARD_HEIGHT ≤ fuel)%nat →
  validType (type (currentPiece g)) →
  sameCells (board g) (board g') →
  type (currentPiece g') = type (currentPiece g) →
  (∃ rot col, validRotation rot ∧ legalAtSpawn g rot col) →
  ∃ target,
    findBestPlacement fuel g = Some (target, g) ∧
    findBestPlacement fuel g' = Some (target, g').
Proof.
  intros Hfuel Hty Hsame Htype (rot0 & col0 & Hrot0 & Hlegal0).
  assert (Hty' : validType (type (currentPiece g'))) by (rewrite Htype; exact Hty).
  assert (Hto : ∀ rot col, legalAtSpawn g rot col → legalAtSpawn g' rot col).
  { intros rot col H. unfold legalAtSpawn in *. rewrite Htype.
    exact (placementLegal_ext _ _ _ _ _ _ Hsame H). }
  assert (Hfrom : ∀ rot col, legalAtSpawn g' rot col → legalAtSpawn g rot col).
  { intros rot col H. unfold legalAtSpawn in *. rewrite Htype in H.
    exact (placementLegal_ext _ _ _ _ _ _ (sameCells_sym _ _ Hsame) H). }
  destruct (search_some_legal fuel g Hfuel Hty)
    as (bx & br & Hrun & Hbr & Hbl & Hbest); [exists rot0, col0; auto|].
  destruct (search_some_legal fuel g' Hfuel Hty')
    as (bx' & br' & Hrun' & Hbr' & Hbl' & Hbest'); [exists rot0, col0; auto|].
  destruct (Hbest br' bx' Hbr' (Hfrom _ _ Hbl')) as [Hle1 Hlt1].
  destruct (Hbest' br bx Hbr (Hto _ _ Hbl)) as [Hle2 Hlt2].
  pose proof (scoreValue_ext fuel g g' (br, bx) Hfuel Hsame Htype) as Hs.
  pose proof (scoreValue_ext fuel g g' (br', bx') Hfuel Hsame Htype) as Hs'.
  assert (Heq : bx' = bx ∧ br' = br).
  { destruct (Z.lt_trichotomy br br') as [Hr | [Hr | Hr]].
    - specialize (Hlt2 ltac:(left; simpl; lia)). lia.
    - subst br'. destruct (Z.lt_trichotomy bx bx') as [Hx | [Hx | Hx]].
      + specialize (Hlt2 ltac:(right; simpl; lia)). lia.
      + auto.
      + specialize (Hlt1 ltac:(right; simpl; lia)). lia.
    - specialize (Hlt1 ltac:(left; simpl; lia)). lia. }
  destruct Heq as [-> ->].
  exists (bx, br). split; assumption.
Qed.

Lemma search_target_is_stable_witness :
  ∃ target,
    findBestPlacement 10 freshGame = Some (target, freshGame) ∧
    findBestPlacement 10 (mkGame emptyBoard (mkPiece 0 1 4 3) false)
    = Some (target, mkGame emptyBoard (mkPiece 0 1 4 3) false).
Proof.
  apply (search_target_is_stable 10 freshGame (mkGame emptyBoard (mkPiece 0 1 4 3) false)).
  - change (10 ≤ 10)%nat. lia.
  - unfold validType, NUM_TETROMINO. simpl. lia.
  - intros r c _. reflexivity.
  - reflexivity.
  - exists 0, 1. split; [unfold validRotation; lia | exact freshGame_legal_at_spawn].
Defined.
